(** * cleanuphttp: graceful shutdown with pre/post clean-up stacks

    A shallow embedding of [cleanuphttp.go].  The first part embeds the
    data types and the sequential methods ([routineStack.push], [pop],
    [cleanupPush], [cleanupPop], [cleanup], [isClosed]).  The second part
    is an interleaving semantics of the goroutines of the package: the
    caller of [Serve], the goroutine running [ListenAndServe], the
    goroutine running [handleSignal], and callers of the push/pop API.
    Each step of that semantics is one mutex-protected or atomic operation
    of the source, so the sequential methods are its building blocks. *)

From stdpp Require Import base list strings.
From Stdlib Require Import ZArith Lia.

Local Open Scope Z_scope.
Local Open Scope nat_scope.

(** ** Data model *)

(** [type Routine func(interface{})]: a Go function value is either [nil]
    or a function, which the model knows by an identifier only. *)
Inductive Routine :=
| NilRoutine
| Func (id : nat).

(** [interface{}]: the opaque argument handed back to the routine. *)
Inductive Iface :=
| NilIface
| IntVal (z : Z)
| StrVal (s : string).

(** [type cleanupRoutine struct { routine Routine; arg interface{} }] *)
Record cleanupRoutine := mkCleanupRoutine {
  routine : Routine;
  arg : Iface
}.

(** The zero value [cleanupRoutine{}]. *)
Definition zeroCleanupRoutine : cleanupRoutine :=
  mkCleanupRoutine NilRoutine NilIface.

(** [type routineStack struct { mu sync.Mutex; routines []cleanupRoutine }].
    The mutex is not a field of the model: every method below runs as one
    atomic step of the interleaving semantics, which is what holding
    [mu] for the whole method body gives. *)
Record routineStack := mkRoutineStack {
  routines : list cleanupRoutine
}.

(** [type CleanupHTTP struct].  [Server] is a pointer: [None] is nil and
    [Some n] names a server.  [closing] is an [int32]. *)
Record CleanupHTTP := mkCleanupHTTP {
  Server : option nat;
  preRoutines : routineStack;
  postRoutines : routineStack;
  closing : Z;
  interrupted : bool
}.

(** [var defaultCleanupHTTP CleanupHTTP]: the zero value. *)
Definition defaultCleanupHTTP : CleanupHTTP :=
  mkCleanupHTTP None (mkRoutineStack []) (mkRoutineStack []) 0%Z false.

(** Which of the two stacks a call is about ([&c.preRoutines] or
    [&c.postRoutines]). *)
Inductive StackSel := PreStack | PostStack.

Definition getStack (k : StackSel) (c : CleanupHTTP) : routineStack :=
  match k with
  | PreStack => preRoutines c
  | PostStack => postRoutines c
  end.

Definition setStack (k : StackSel) (s : routineStack) (c : CleanupHTTP) : CleanupHTTP :=
  match k with
  | PreStack => mkCleanupHTTP (Server c) s (postRoutines c) (closing c) (interrupted c)
  | PostStack => mkCleanupHTTP (Server c) (preRoutines c) s (closing c) (interrupted c)
  end.

Definition setClosing (v : Z) (c : CleanupHTTP) : CleanupHTTP :=
  mkCleanupHTTP (Server c) (preRoutines c) (postRoutines c) v (interrupted c).

Definition setInterrupted (b : bool) (c : CleanupHTTP) : CleanupHTTP :=
  mkCleanupHTTP (Server c) (preRoutines c) (postRoutines c) (closing c) b.

Definition setServer (srv : option nat) (c : CleanupHTTP) : CleanupHTTP :=
  mkCleanupHTTP srv (preRoutines c) (postRoutines c) (closing c) (interrupted c).

(** ** routineStack *)

(** [func (s *routineStack) len() int] *)
Definition len (s : routineStack) : nat := length (routines s).

(** [func (s *routineStack) push(routine cleanupRoutine)]:
    [s.routines = append(s.routines, routine)]. *)
Definition push (r : cleanupRoutine) (s : routineStack) : routineStack :=
  mkRoutineStack (routines s ++ [r]).

(** [func (s *routineStack) pop() (cleanupRoutine, bool)]: the result, the
    [ok] flag and the stack afterwards. *)
Definition pop (s : routineStack) : cleanupRoutine * bool * routineStack :=
  if Nat.eqb (length (routines s)) 0 then
    (zeroCleanupRoutine, false, s)
  else
    let index := length (routines s) - 1 in
    let r := nth index (routines s) zeroCleanupRoutine in
    (r, true, mkRoutineStack (take index (routines s))).

(** ** The closing flag *)

(** [atomic.CompareAndSwapInt32(addr, old, new)]: the value stored
    afterwards and whether the swap happened. *)
Definition compareAndSwapInt32 (v old new : Z) : Z * bool :=
  if Z.eqb v old then (new, true) else (v, false).

(** [func (c *CleanupHTTP) isClosed() bool] *)
Definition isClosed (c : CleanupHTTP) : bool :=
  negb (Z.eqb (closing c) 0).

(** ** cleanupPush, cleanupPop *)

Definition pushFailed : string := "Push failed: closed".
Definition popFailed : string := "Pop failed: closed".

(** [func (c *CleanupHTTP) cleanupPush(stack, routine, arg)], run without
    interference: the instance afterwards and the lines logged. *)
Definition cleanupPush (k : StackSel) (f : Routine) (a : Iface) (c : CleanupHTTP)
  : CleanupHTTP * list string :=
  if isClosed c then (c, [pushFailed])
  else (setStack k (push (mkCleanupRoutine f a) (getStack k c)) c, []).

(** [func (c *CleanupHTTP) cleanupPop(stack) (Routine, interface{}, bool)],
    run without interference. *)
Definition cleanupPop (k : StackSel) (c : CleanupHTTP)
  : (Routine * Iface * bool) * CleanupHTTP * list string :=
  if isClosed c then ((NilRoutine, NilIface, false), c, [popFailed])
  else
    let '(r, ok, s') := pop (getStack k c) in
    if ok then ((routine r, arg r, true), setStack k s' c, [])
    else ((NilRoutine, NilIface, false), c, []).

(** ** cleanup *)

(** [func (c *CleanupHTTP) cleanup(stack)]: the loop pops and invokes until
    [pop] reports an empty stack.  The result lists the routines invoked,
    in order of invocation, and the stack left; [None] is an exhausted
    iteration budget. *)
Fixpoint cleanupLoop (fuel : nat) (s : routineStack)
  : option (list cleanupRoutine * routineStack) :=
  match fuel with
  | O => None
  | S fuel' =>
      let '(r, ok, s') := pop s in
      if ok then
        match cleanupLoop fuel' s' with
        | Some (rs, s'') => Some (r :: rs, s'')
        | None => None
        end
      else Some ([], s')
  end.

Definition cleanup (k : StackSel) (c : CleanupHTTP)
  : option (list cleanupRoutine * CleanupHTTP) :=
  match cleanupLoop (S (len (getStack k c))) (getStack k c) with
  | Some (rs, s') => Some (rs, setStack k s' c)
  | None => None
  end.

(** A run of pushes [a1, ..., an] with no pop in between. *)
Definition pushAll (l : list cleanupRoutine) (s : routineStack) : routineStack :=
  foldl (fun acc r => push r acc) s l.

(** ** The context handed to Shutdown *)

(** [context.Background()] and [context.WithTimeout(parent, d)]; [d] is a
    [time.Duration], a signed 64-bit count of nanoseconds. *)
Inductive Context :=
| Background
| WithTimeout (parent : Context) (d : Z).

(** Lines 60-68 of [Serve].  With a positive timeout [cancel] is deferred
    as well; it runs before the deferred [postCleanup] and touches nothing
    of the instance. *)
Definition shutdownContext (timeout : Z) : Context :=
  if Z.ltb 0 timeout then WithTimeout Background timeout else Background.

Definition hasDeadline (ctx : Context) : option Z :=
  match ctx with
  | Background => None
  | WithTimeout _ d => Some d
  end.

(** ** Interleaving semantics of the goroutines *)

(** What the environment decides at a call into code outside the package:
    the call returns normally (a nil error), returns a non-nil error, or
    panics. *)
Inductive Choice := ChNil | ChErr | ChPanic.

(** Who attempts to trigger shutdown: the goroutine of lines 41-49 or
    [handleSignal]. *)
Inductive Trigger := ByService | BySignal.

(** What is observed of a run.  [s] numbers the calls of [Serve] on the
    instance, [i] the calls of the push/pop API. *)
Inductive Event :=
| EvLog (msg : string)                          (* a line written by log.Printf/Println *)
| EvCas (s : nat) (who : Trigger) (won : bool)  (* CompareAndSwapInt32(&c.closing, 0, 1) *)
| EvCloseQuit (s : nat) (who : Trigger)         (* close(quit) *)
| EvClosePanic (s : nat) (who : Trigger)        (* close(quit) on a closed channel *)
| EvCall (s : nat) (k : StackSel) (r : cleanupRoutine)
    (* cleanup popped r from stack k and calls r.routine(r.arg) *)
| EvRet (s : nat) (k : StackSel) (r : cleanupRoutine)          (* that call returns *)
| EvRoutinePanic (s : nat) (k : StackSel) (r : cleanupRoutine) (* that call panics *)
| EvShutdownBegin (s : nat) (ctx : Context)     (* c.Server.Shutdown(ctx) is called *)
| EvShutdownEnd (s : nat) (o : Choice)          (* and returns nil, an error, or panics *)
| EvPushed (i : nat) (k : StackSel) (r : cleanupRoutine)   (* stack.push in cleanupPush *)
| EvPopped (i : nat) (k : StackSel) (r : cleanupRoutine).  (* stack.pop in cleanupPop *)

(** Where the caller of [Serve] stands (lines 51-73). *)
Inductive ServePc :=
| SvWaitQuit                                        (* <-quit *)
| SvPreCleanup                                      (* c.preCleanup(): about to pop *)
| SvPreRoutine (r : cleanupRoutine)                 (* routine(arg) is running *)
| SvShutdown (ctx : Context)                        (* c.Server.Shutdown(ctx) is running *)
| SvPostCleanup (panicking : bool)                  (* deferred c.postCleanup(): about to pop *)
| SvPostRoutine (panicking : bool) (r : cleanupRoutine)
| SvReturned
| SvPanicked.

Record ServeFrame := mkServeFrame {
  timeout : Z;
  servePc : ServePc
}.

(** The goroutine of lines 41-49. *)
Inductive ServicePc :=
| GListenAndServe
| GCas
| GClose
| GExited
| GPanicked.

(** [handleSignal] (lines 129-145). *)
Inductive SignalPc :=
| HRange                 (* for i := range interrupt *)
| HInterrupted           (* if c.interrupted *)
| HSetInterrupted        (* c.interrupted = true *)
| HIsClosed              (* if c.isClosed() *)
| HCas
| HClose
| HPanicked.

(** A caller of [cleanupPush] or [cleanupPop], between the [isClosed]
    check and the stack operation. *)
Inductive ClientPc :=
| CPushCheck (k : StackSel) (r : cleanupRoutine)
| CPushPush (k : StackSel) (r : cleanupRoutine)
| CPushReturned (accepted : bool)
| CPopCheck (k : StackSel)
| CPopPop (k : StackSel)
| CPopReturned (f : Routine) (a : Iface) (ok : bool).

(** One [CleanupHTTP] instance and everything running on it.  Every call
    of [Serve] has a number [s]: [quits !! s] tells whether its [quit]
    channel is closed, and [serves], [services], [signals] hold its three
    goroutines.  [trace] is the history, oldest event first. *)
Record System := mkSystem {
  obj : CleanupHTTP;
  quits : list bool;
  serves : list ServeFrame;
  services : list ServicePc;
  signals : list SignalPc;
  clients : list ClientPc;
  trace : list Event
}.

Definition initial (c : CleanupHTTP) : System :=
  mkSystem c [] [] [] [] [] [].

Definition setObj (c : CleanupHTTP) (σ : System) : System :=
  mkSystem c (quits σ) (serves σ) (services σ) (signals σ) (clients σ) (trace σ).

Definition setQuits (q : list bool) (σ : System) : System :=
  mkSystem (obj σ) q (serves σ) (services σ) (signals σ) (clients σ) (trace σ).

Definition setServes (l : list ServeFrame) (σ : System) : System :=
  mkSystem (obj σ) (quits σ) l (services σ) (signals σ) (clients σ) (trace σ).

Definition setServices (l : list ServicePc) (σ : System) : System :=
  mkSystem (obj σ) (quits σ) (serves σ) l (signals σ) (clients σ) (trace σ).

Definition setSignals (l : list SignalPc) (σ : System) : System :=
  mkSystem (obj σ) (quits σ) (serves σ) (services σ) l (clients σ) (trace σ).

Definition setClients (l : list ClientPc) (σ : System) : System :=
  mkSystem (obj σ) (quits σ) (serves σ) (services σ) (signals σ) l (trace σ).

Definition emit (evs : list Event) (σ : System) : System :=
  mkSystem (obj σ) (quits σ) (serves σ) (services σ) (signals σ) (clients σ)
           (trace σ ++ evs).

Definition gotoServe (s : nat) (t : Z) (pc : ServePc) (σ : System) : System :=
  setServes (<[s := mkServeFrame t pc]> (serves σ)) σ.

Definition gotoService (s : nat) (pc : ServicePc) (σ : System) : System :=
  setServices (<[s := pc]> (services σ)) σ.

Definition gotoSignal (s : nat) (pc : SignalPc) (σ : System) : System :=
  setSignals (<[s := pc]> (signals σ)) σ.

Definition gotoClient (i : nat) (pc : ClientPc) (σ : System) : System :=
  setClients (<[i := pc]> (clients σ)) σ.

Definition isNilRoutine (f : Routine) : bool :=
  match f with NilRoutine => true | Func _ => false end.

Definition listenFailed : string := "ListenAndServe failed: %s".
Definition shutdownFailed : string := "Shutdown failed: %s".
Definition systemCall : string := "System call: %+v".

(** [Serve] up to the receive on [quit] (lines 35-49): a fresh [quit]
    channel, and the two goroutines started. *)
Definition callServe (t : Z) (σ : System) : System :=
  mkSystem (obj σ) (quits σ ++ [false])
           (serves σ ++ [mkServeFrame t SvWaitQuit])
           (services σ ++ [GListenAndServe])
           (signals σ ++ [HRange])
           (clients σ) (trace σ).

(** One pass of the loop of [cleanup] on stack [k], up to the call of the
    routine; [onEmpty] is what follows the [break]. *)
Definition cleanupStep (s : nat) (t : Z) (k : StackSel)
    (onCall : cleanupRoutine -> ServePc) (onEmpty : System -> System)
    (σ : System) : System :=
  let '(r, ok, st') := pop (getStack k (obj σ)) in
  if ok then
    emit [EvCall s k r]
      (gotoServe s t (onCall r) (setObj (setStack k st' (obj σ)) σ))
  else onEmpty σ.

(** The routine called from [cleanup] returns or panics; a nil routine
    cannot return. *)
Definition routineStep (s : nat) (t : Z) (k : StackSel) (r : cleanupRoutine)
    (back : ServePc) (ch : Choice) (σ : System) : option System :=
  match ch with
  | ChNil =>
      if isNilRoutine (routine r) then None
      else Some (emit [EvRet s k r] (gotoServe s t back σ))
  | ChErr => None
  | ChPanic => Some (emit [EvRoutinePanic s k r] (gotoServe s t SvPanicked σ))
  end.

(** A step of the caller of [Serve], call number [s]. *)
Definition serveStep (s : nat) (ch : Choice) (σ : System) : option System :=
  match serves σ !! s with
  | None => None
  | Some fr =>
      let t := timeout fr in
      match servePc fr with
      | SvWaitQuit =>
          match quits σ !! s with
          | Some true => Some (gotoServe s t SvPreCleanup σ)
          | _ => None
          end
      | SvPreCleanup =>
          Some (cleanupStep s t PreStack SvPreRoutine
                  (fun σ' =>
                     (* defer c.postCleanup(); lines 55-68; Shutdown is called *)
                     let ctx := shutdownContext t in
                     emit [EvShutdownBegin s ctx] (gotoServe s t (SvShutdown ctx) σ'))
                  σ)
      | SvPreRoutine r => routineStep s t PreStack r SvPreCleanup ch σ
      | SvShutdown ctx =>
          (* Shutdown returns or panics; the deferred calls run either way:
             cancel() when it was registered, then postCleanup() *)
          match ch with
          | ChNil =>
              Some (emit [EvShutdownEnd s ChNil] (gotoServe s t (SvPostCleanup false) σ))
          | ChErr =>
              Some (emit [EvShutdownEnd s ChErr; EvLog shutdownFailed]
                      (gotoServe s t (SvPostCleanup false) σ))
          | ChPanic =>
              Some (emit [EvShutdownEnd s ChPanic] (gotoServe s t (SvPostCleanup true) σ))
          end
      | SvPostCleanup p =>
          Some (cleanupStep s t PostStack (SvPostRoutine p)
                  (fun σ' => gotoServe s t (if p then SvPanicked else SvReturned) σ')
                  σ)
      | SvPostRoutine p r => routineStep s t PostStack r (SvPostCleanup p) ch σ
      | SvReturned => None
      | SvPanicked => None
      end
  end.

(** The compare-and-swap of lines 46 and 141, by [who] of call [s]. *)
Definition casStep (s : nat) (who : Trigger) (σ : System) : bool * System :=
  let '(v, won) := compareAndSwapInt32 (closing (obj σ)) 0%Z 1%Z in
  (won, emit [EvCas s who won] (setObj (setClosing v (obj σ)) σ)).

(** [close(quit)]: closing a closed channel panics. *)
Definition closeStep (s : nat) (who : Trigger) (σ : System) : option (bool * System) :=
  match quits σ !! s with
  | Some false => Some (true, emit [EvCloseQuit s who] (setQuits (<[s := true]> (quits σ)) σ))
  | Some true => Some (false, emit [EvClosePanic s who] σ)
  | None => None
  end.

(** A step of the goroutine of lines 41-49; [ch] is what
    [ListenAndServe] returns: [ChNil] stands for [http.ErrServerClosed],
    [ChErr] for any other error. *)
Definition serviceStep (s : nat) (ch : Choice) (σ : System) : option System :=
  match services σ !! s with
  | None => None
  | Some GListenAndServe =>
      match ch with
      | ChNil => Some (gotoService s GCas σ)
      | ChErr => Some (emit [EvLog listenFailed] (gotoService s GCas σ))
      | ChPanic => None
      end
  | Some GCas =>
      let '(won, σ') := casStep s ByService σ in
      Some (gotoService s (if won then GClose else GExited) σ')
  | Some GClose =>
      match closeStep s ByService σ with
      | Some (ok, σ') => Some (gotoService s (if ok then GExited else GPanicked) σ')
      | None => None
      end
  | Some GExited => None
  | Some GPanicked => None
  end.

(** A step of [handleSignal] of call [s]; at [HRange] a signal arrives. *)
Definition signalStep (s : nat) (σ : System) : option System :=
  match signals σ !! s with
  | None => None
  | Some HRange => Some (emit [EvLog systemCall] (gotoSignal s HInterrupted σ))
  | Some HInterrupted =>
      Some (gotoSignal s (if interrupted (obj σ) then HRange else HSetInterrupted) σ)
  | Some HSetInterrupted =>
      Some (gotoSignal s HIsClosed (setObj (setInterrupted true (obj σ)) σ))
  | Some HIsClosed =>
      Some (gotoSignal s (if isClosed (obj σ) then HRange else HCas) σ)
  | Some HCas =>
      let '(won, σ') := casStep s BySignal σ in
      Some (gotoSignal s (if won then HClose else HRange) σ')
  | Some HClose =>
      match closeStep s BySignal σ with
      | Some (ok, σ') => Some (gotoSignal s (if ok then HRange else HPanicked) σ')
      | None => None
      end
  | Some HPanicked => None
  end.

(** A step of caller [i] of [cleanupPush] or [cleanupPop]. *)
Definition clientStep (i : nat) (σ : System) : option System :=
  match clients σ !! i with
  | None => None
  | Some (CPushCheck k r) =>
      if isClosed (obj σ) then
        Some (emit [EvLog pushFailed] (gotoClient i (CPushReturned false) σ))
      else Some (gotoClient i (CPushPush k r) σ)
  | Some (CPushPush k r) =>
      Some (emit [EvPushed i k r]
              (gotoClient i (CPushReturned true)
                 (setObj (setStack k (push r (getStack k (obj σ))) (obj σ)) σ)))
  | Some (CPushReturned _) => None
  | Some (CPopCheck k) =>
      if isClosed (obj σ) then
        Some (emit [EvLog popFailed] (gotoClient i (CPopReturned NilRoutine NilIface false) σ))
      else Some (gotoClient i (CPopPop k) σ)
  | Some (CPopPop k) =>
      let '(r, ok, st') := pop (getStack k (obj σ)) in
      if ok then
        Some (emit [EvPopped i k r]
                (gotoClient i (CPopReturned (routine r) (arg r) true)
                   (setObj (setStack k st' (obj σ)) σ)))
      else Some (gotoClient i (CPopReturned NilRoutine NilIface false) σ)
  | Some (CPopReturned _ _ _) => None
  end.

Inductive Action :=
| ACallServe (t : Z)                        (* c.Serve(t) is called *)
| ACallPkgServe (srv : option nat) (t : Z)  (* Serve(server, t) on the default instance *)
| AServe (s : nat) (ch : Choice)
| AService (s : nat) (ch : Choice)
| ASignal (s : nat)
| ACallPush (k : StackSel) (f : Routine) (a : Iface)
| ACallPop (k : StackSel)
| AClient (i : nat).

Definition step (a : Action) (σ : System) : option System :=
  match a with
  | ACallServe t => Some (callServe t σ)
  | ACallPkgServe srv t => Some (callServe t (setObj (setServer srv (obj σ)) σ))
  | AServe s ch => serveStep s ch σ
  | AService s ch => serviceStep s ch σ
  | ASignal s => signalStep s σ
  | ACallPush k f a =>
      Some (setClients (clients σ ++ [CPushCheck k (mkCleanupRoutine f a)]) σ)
  | ACallPop k => Some (setClients (clients σ ++ [CPopCheck k]) σ)
  | AClient i => clientStep i σ
  end.

Fixpoint run (acts : list Action) (σ : System) : option System :=
  match acts with
  | [] => Some σ
  | a :: rest =>
      match step a σ with
      | Some σ' => run rest σ'
      | None => None
      end
  end.

(** The states the package can be in: it starts from the zero value of
    [CleanupHTTP], with any [Server] (the other fields are unexported). *)
Inductive reachable : System -> Prop :=
| reachable_init srv : reachable (initial (setServer srv defaultCleanupHTTP))
| reachable_step a σ σ' : reachable σ -> step a σ = Some σ' -> reachable σ'.

(** ** Observations on states and traces *)

Fixpoint countIf {A : Type} (p : A -> bool) (l : list A) : nat :=
  match l with
  | [] => 0
  | x :: l' => (if p x then 1 else 0) + countIf p l'
  end.

(** The outcome of a compare-and-swap attempt on [closing]. *)
Definition casOutcome (e : Event) : option bool :=
  match e with
  | EvCas _ _ won => Some won
  | _ => None
  end.

(** The outcomes of all attempts, in the order they took effect. *)
Definition casOutcomes (tr : list Event) : list bool := omap casOutcome tr.

Definition isCloseQuit (e : Event) : bool :=
  match e with EvCloseQuit _ _ => true | _ => false end.

Definition isClosePanic (e : Event) : bool :=
  match e with EvClosePanic _ _ => true | _ => false end.

Definition atGClose (pc : ServicePc) : bool :=
  match pc with GClose => true | _ => false end.

Definition atHClose (pc : SignalPc) : bool :=
  match pc with HClose => true | _ => false end.

(** Goroutines that have won the compare-and-swap and stand at
    [close(quit)]. *)
Definition pendingCloses (σ : System) : nat :=
  countIf atGClose (services σ) + countIf atHClose (signals σ).

(** [quit] channels that are closed. *)
Definition closedQuits (σ : System) : nat := countIf id (quits σ).

(** Events of the caller of [Serve] number [s]. *)
Definition serveEvent (s : nat) (e : Event) : bool :=
  match e with
  | EvCall s' _ _ | EvRet s' _ _ | EvRoutinePanic s' _ _
  | EvShutdownBegin s' _ | EvShutdownEnd s' _ => Nat.eqb s s'
  | _ => false
  end.

(** Events of call [s] about a routine popped from stack [k]. *)
Definition routineEvent (s : nat) (k : StackSel) (e : Event) : bool :=
  match e, k with
  | EvCall s' PreStack _, PreStack | EvRet s' PreStack _, PreStack
  | EvRoutinePanic s' PreStack _, PreStack => Nat.eqb s s'
  | EvCall s' PostStack _, PostStack | EvRet s' PostStack _, PostStack
  | EvRoutinePanic s' PostStack _, PostStack => Nat.eqb s s'
  | _, _ => false
  end.

(** The ordering law on a history, for call [s]: when Shutdown is called,
    every routine of the pre-stack invoked so far has returned and none is
    invoked later; Shutdown has been called before it ends; and a routine
    of the post-stack is invoked only after Shutdown has ended. *)
Definition orderingLaw (s : nat) (tr : list Event) : Prop :=
  (forall t1 ctx t2, tr = t1 ++ EvShutdownBegin s ctx :: t2 ->
     (forall u1 r u2, t1 = u1 ++ EvCall s PreStack r :: u2 -> EvRet s PreStack r ∈ u2) /\
     (forall e, e ∈ t2 -> routineEvent s PreStack e = false)) /\
  (forall t1 o t2, tr = t1 ++ EvShutdownEnd s o :: t2 ->
     exists ctx, EvShutdownBegin s ctx ∈ t1) /\
  (forall t1 e t2, tr = t1 ++ e :: t2 -> routineEvent s PostStack e = true ->
     exists o, EvShutdownEnd s o ∈ t1).

(** The events of invoking the routines [rs] of stack [k] one after the
    other, each returning. *)
Definition invocations (s : nat) (k : StackSel) (rs : list cleanupRoutine) : list Event :=
  flat_map (fun r => [EvCall s k r; EvRet s k r]) rs.

(** The steps of the caller of [Serve] that pop and invoke [n] routines,
    every routine returning: a pop and a return for each. *)
Fixpoint loopActions (s : nat) (n : nat) : list Action :=
  match n with
  | O => []
  | S n' => AServe s ChNil :: AServe s ChNil :: loopActions s n'
  end.

(** The steps that drain a stack of [n] routines: the loop, and the pop
    that finds the stack empty. *)
Definition drainActions (s : nat) (n : nat) : list Action :=
  loopActions s n ++ [AServe s ChNil].

(** What the end of Shutdown adds to the history. *)
Definition shutdownEndEvents (s : nat) (o : Choice) : list Event :=
  match o with
  | ChErr => [EvShutdownEnd s ChErr; EvLog shutdownFailed]
  | _ => [EvShutdownEnd s o]
  end.

Definition callable (rs : list cleanupRoutine) : Prop :=
  Forall (fun r => isNilRoutine (routine r) = false) rs.

(** Whether Shutdown ended by panicking. *)
Definition panicked (o : Choice) : bool :=
  match o with ChPanic => true | _ => false end.

(** How [Serve] ends after Shutdown ended with [o]. *)
Definition serveExit (o : Choice) : ServePc :=
  match o with ChPanic => SvPanicked | _ => SvReturned end.

(** ** Invariants of the reachable states *)

(** The shutdown latch: the [closing] flag, the [quit] channels, and the goroutines
    that may close them. *)
Record gateInv (σ : System) : Prop := mkGateInv {
  gi_quits_len : length (quits σ) = length (serves σ);
  gi_services_len : length (services σ) = length (serves σ);
  gi_signals_len : length (signals σ) = length (serves σ);
  gi_flag : closing (obj σ) = 0%Z \/ closing (obj σ) = 1%Z;
  gi_token :
    pendingCloses σ + closedQuits σ = (if Z.eqb (closing (obj σ)) 0 then 0 else 1);
  gi_cas_open : closing (obj σ) = 0%Z -> casOutcomes (trace σ) = [];
  gi_cas_closed :
    closing (obj σ) <> 0%Z ->
    exists n, casOutcomes (trace σ) = true :: replicate n false;
  gi_closes : countIf isCloseQuit (trace σ) = closedQuits σ;
  gi_no_panic : countIf isClosePanic (trace σ) = 0;
  gi_waiter :
    forall s fr, serves σ !! s = Some fr -> servePc fr <> SvWaitQuit ->
                 quits σ !! s = Some true;
  gi_service_won :
    forall s, services σ !! s = Some GClose -> EvCas s ByService true ∈ trace σ;
  gi_signal_won :
    forall s, signals σ !! s = Some HClose -> EvCas s BySignal true ∈ trace σ;
  gi_close_by_winner :
    forall s who, EvCloseQuit s who ∈ trace σ -> EvCas s who true ∈ trace σ
}.

(** ** Example runs *)

Definition theServer : option nat := Some 1.

Definition start : System := initial (setServer theServer defaultCleanupHTTP).

Definition finalOf (acts : list Action) : System :=
  match run acts start with
  | Some σ => σ
  | None => start
  end.

(** The test of the package: two routines on each stack, then [Serve]. *)
Definition cleanup1 : cleanupRoutine := mkCleanupRoutine (Func 1) (IntVal 2).
Definition cleanup2 : cleanupRoutine := mkCleanupRoutine (Func 2) (IntVal 1).
Definition cleanup3 : cleanupRoutine := mkCleanupRoutine (Func 3) (IntVal 4).
Definition cleanup4 : cleanupRoutine := mkCleanupRoutine (Func 4) (IntVal 3).

Definition fiveSeconds : Z := 5000000000%Z.

Definition pushes : list Action :=
  [ ACallPush PreStack (Func 1) (IntVal 2); AClient 0; AClient 0;
    ACallPush PreStack (Func 2) (IntVal 1); AClient 1; AClient 1;
    ACallPush PostStack (Func 3) (IntVal 4); AClient 2; AClient 2;
    ACallPush PostStack (Func 4) (IntVal 3); AClient 3; AClient 3 ].

(** A signal arrives while [ListenAndServe] is failing: both goroutines
    reach their compare-and-swap, the service goroutine first. *)
Definition raceSteps : list Action :=
  [ ACallServe fiveSeconds;
    ASignal 0; ASignal 0; ASignal 0; ASignal 0;   (* handleSignal is at its CAS *)
    AService 0 ChErr;                             (* ListenAndServe fails *)
    AService 0 ChNil;                             (* CAS: wins *)
    ASignal 0;                                    (* CAS: loses *)
    AService 0 ChNil ].                           (* close(quit) *)

Definition raceActions : list Action := pushes ++ raceSteps.

(** [Serve] then runs to its end, Shutdown returning [o]. *)
Definition serveToEnd (o : Choice) : list Action :=
  [ AServe 0 ChNil ] ++ drainActions 0 2 ++ [ AServe 0 o ] ++ drainActions 0 2.

Definition fullRun (o : Choice) : list Action := raceActions ++ serveToEnd o.

(** What a caller standing at the [isClosed] check ends with when it finds
    the flag set. *)
Definition rejection (pc : ClientPc) : ClientPc :=
  match pc with
  | CPushCheck _ _ => CPushReturned false
  | CPopCheck _ => CPopReturned NilRoutine NilIface false
  | _ => pc
  end.

Definition atCheck (pc : ClientPc) : bool :=
  match pc with
  | CPushCheck _ _ | CPopCheck _ => true
  | _ => false
  end.

(** Caller [i], which made the call [pc0], is before its check or has been
    turned away; the flag is set. *)
Definition turnedAway (i : nat) (pc0 : ClientPc) (σ : System) : Prop :=
  closing (obj σ) <> 0%Z /\
  (clients σ !! i = Some pc0 \/ clients σ !! i = Some (rejection pc0)).

(** After that run a second [Serve] is called on the same instance: its
    [ListenAndServe] fails, a signal arrives, a push and a pop are tried. *)
Definition secondCall : list Action :=
  [ ACallPkgServe theServer fiveSeconds;
    AService 1 ChErr; AService 1 ChNil;
    ASignal 1; ASignal 1;
    ACallPush PreStack (Func 5) (IntVal 5); AClient 4;
    ACallPop PostStack; AClient 5 ].

(** ** The caller of Serve, step by step *)

(** The transitions of the caller of [Serve] number [s], called with
    timeout [t], and what each adds to the history. *)
Inductive serveTrans (s : nat) (t : Z) : ServePc -> ServePc -> list Event -> Prop :=
| st_quit :
    serveTrans s t SvWaitQuit SvPreCleanup []
| st_pre_call r :
    serveTrans s t SvPreCleanup (SvPreRoutine r) [EvCall s PreStack r]
| st_pre_done :
    serveTrans s t SvPreCleanup (SvShutdown (shutdownContext t))
               [EvShutdownBegin s (shutdownContext t)]
| st_pre_ret r :
    serveTrans s t (SvPreRoutine r) SvPreCleanup [EvRet s PreStack r]
| st_pre_panic r :
    serveTrans s t (SvPreRoutine r) SvPanicked [EvRoutinePanic s PreStack r]
| st_shutdown ctx o :
    serveTrans s t (SvShutdown ctx)
               (SvPostCleanup (match o with ChPanic => true | _ => false end))
               (shutdownEndEvents s o)
| st_post_call p r :
    serveTrans s t (SvPostCleanup p) (SvPostRoutine p r) [EvCall s PostStack r]
| st_post_done p :
    serveTrans s t (SvPostCleanup p) (if p then SvPanicked else SvReturned) []
| st_post_ret p r :
    serveTrans s t (SvPostRoutine p r) (SvPostCleanup p) [EvRet s PostStack r]
| st_post_panic p r :
    serveTrans s t (SvPostRoutine p r) SvPanicked [EvRoutinePanic s PostStack r].

Definition noBegin (s : nat) (tr : list Event) : Prop :=
  forall ctx, EvShutdownBegin s ctx ∉ tr.

(** Every routine of the pre-stack invoked by call [s] has returned,
    except, when [running] is given, the one that is running. *)
Definition preReturned (s : nat) (running : option cleanupRoutine) (tr : list Event) : Prop :=
  forall u1 r u2, tr = u1 ++ EvCall s PreStack r :: u2 ->
                  EvRet s PreStack r ∈ u2 \/ running = Some r.

(** What the history holds when the caller of [Serve] stands at [pc]. *)
Definition phaseFacts (s : nat) (pc : ServePc) (tr : list Event) : Prop :=
  match pc with
  | SvWaitQuit => forall e, e ∈ tr -> serveEvent s e = false
  | SvPreCleanup => noBegin s tr /\ preReturned s None tr
  | SvPreRoutine r => noBegin s tr /\ preReturned s (Some r) tr
  | SvShutdown _ => exists ctx, EvShutdownBegin s ctx ∈ tr
  | SvPostCleanup _ | SvPostRoutine _ _ => exists o, EvShutdownEnd s o ∈ tr
  | SvReturned | SvPanicked => True
  end.

(** Where the caller of [Serve] number [s] stands; a call not made yet
    counts as waiting. *)
Definition pcOf (s : nat) (σ : System) : ServePc :=
  match serves σ !! s with
  | Some fr => servePc fr
  | None => SvWaitQuit
  end.

Definition orderInv (s : nat) (σ : System) : Prop :=
  orderingLaw s (trace σ) /\ phaseFacts s (pcOf s σ) (trace σ).

(** Every call of Shutdown in the history was given the context built
    from the timeout of its call of [Serve]. *)
Definition contextInv (σ : System) : Prop :=
  forall s ctx, EvShutdownBegin s ctx ∈ trace σ ->
    exists fr, serves σ !! s = Some fr /\ ctx = shutdownContext (timeout fr).

(** Call [s] of [Serve] was made with timeout [t]. *)
Definition calledWith (s : nat) (t : Z) (σ : System) : Prop :=
  exists pc, serves σ !! s = Some (mkServeFrame t pc).

(** [Serve] is called with timeout 0 on a fresh instance, [ListenAndServe]
    fails, and the caller gets as far as calling Shutdown. *)
Definition unboundedRun : list Action :=
  [ ACallServe 0%Z;
    AService 0 ChErr; AService 0 ChNil; AService 0 ChNil;
    AServe 0 ChNil; AServe 0 ChNil ].

(** The first call of [Serve] has passed the receive on [quit]. *)
Definition atPreCleanup : System := finalOf (raceActions ++ [AServe 0 ChNil]).

(** The first call of [Serve] has drained the pre-stack and called
    Shutdown. *)
Definition atShutdown : System :=
  finalOf (raceActions ++ AServe 0 ChNil :: drainActions 0 2).

(** A three-state flag: it would hold one value while shutdown is in
    progress and another one once [Serve] has returned. *)
Definition triStateGate : Prop :=
  exists CLOSING CLOSED : Z, CLOSING <> CLOSED /\
    forall acts σ, run acts start = Some σ ->
      (pcOf 0 σ = SvPreCleanup -> closing (obj σ) = CLOSING) /\
      (pcOf 0 σ = SvReturned -> closing (obj σ) = CLOSED).

(** A call of [Serve] numbered [s] that cannot get past the receive on
    [quit]: the flag is set, the channel is open, and neither of its
    goroutines stands at [close(quit)]. *)
Definition stuck (s : nat) (σ : System) : Prop :=
  closing (obj σ) <> 0%Z /\
  (exists t, serves σ !! s = Some (mkServeFrame t SvWaitQuit)) /\
  quits σ !! s = Some false /\
  services σ !! s <> Some GClose /\
  signals σ !! s <> Some HClose.

(** A push passes its check before shutdown is triggered and reaches the
    stack after the first [Serve] has returned. *)
Definition cleanup7 : cleanupRoutine := mkCleanupRoutine (Func 7) (IntVal 7).

Definition lateRun : list Action :=
  [ ACallPush PostStack (Func 7) (IntVal 7); AClient 0;   (* the check: open *)
    ACallPkgServe theServer fiveSeconds;
    AService 0 ChErr; AService 0 ChNil; AService 0 ChNil;
    AServe 0 ChNil;                                       (* past <-quit *)
    AServe 0 ChNil;                                       (* pre-stack empty: Shutdown *)
    AServe 0 ChNil;                                       (* Shutdown returns *)
    AServe 0 ChNil;                                       (* post-stack empty: return *)
    AClient 0 ].                                          (* the push *)

(** ** The exported methods *)

(** [func (c *CleanupHTTP) PreCleanupPush(routine, arg)] and its three
    siblings (lines 75-99).  The package-level functions of the same names
    (lines 177-201) are these calls on [DefaultCleanupHTTP]. *)
Definition PreCleanupPush (f : Routine) (a : Iface) (c : CleanupHTTP) :=
  cleanupPush PreStack f a c.

Definition PreCleanupPop (c : CleanupHTTP) := cleanupPop PreStack c.

Definition PostCleanupPush (f : Routine) (a : Iface) (c : CleanupHTTP) :=
  cleanupPush PostStack f a c.

Definition PostCleanupPop (c : CleanupHTTP) := cleanupPop PostStack c.

(** [func (c *CleanupHTTP) preCleanup()] and [postCleanup()]
    (lines 147-153). *)
Definition preCleanup (c : CleanupHTTP) := cleanup PreStack c.
Definition postCleanup (c : CleanupHTTP) := cleanup PostStack c.


(** ** More observations *)

Definition sameStack (k k' : StackSel) : bool :=
  match k, k' with
  | PreStack, PreStack | PostStack, PostStack => true
  | _, _ => false
  end.

Definition sameTrigger (w w' : Trigger) : bool :=
  match w, w' with
  | ByService, ByService | BySignal, BySignal => true
  | _, _ => false
  end.

(** A compare-and-swap attempt by goroutine [who] of call [s]. *)
Definition casBy (s : nat) (who : Trigger) (e : Event) : bool :=
  match e with
  | EvCas s' who' _ => Nat.eqb s s' && sameTrigger who who'
  | _ => false
  end.

Definition isBegin (s : nat) (e : Event) : bool :=
  match e with EvShutdownBegin s' _ => Nat.eqb s s' | _ => false end.

Definition isEnd (s : nat) (e : Event) : bool :=
  match e with EvShutdownEnd s' _ => Nat.eqb s s' | _ => false end.

Definition pushedOn (k : StackSel) (e : Event) : bool :=
  match e with EvPushed _ k' _ => sameStack k k' | _ => false end.

Definition poppedFrom (k : StackSel) (e : Event) : bool :=
  match e with EvPopped _ k' _ => sameStack k k' | _ => false end.

Definition calledFrom (k : StackSel) (e : Event) : bool :=
  match e with EvCall _ k' _ => sameStack k k' | _ => false end.

(** The caller of [Serve] has not got to the call of Shutdown. *)
Definition beforeShutdown (pc : ServePc) : bool :=
  match pc with
  | SvWaitQuit | SvPreCleanup | SvPreRoutine _ => true
  | _ => false
  end.

(** The caller of [Serve] has not got to the end of Shutdown. *)
Definition beforeShutdownEnd (pc : ServePc) : bool :=
  match pc with
  | SvWaitQuit | SvPreCleanup | SvPreRoutine _ | SvShutdown _ => true
  | _ => false
  end.

(** What [Server] holds after the calls [acts]: the argument of the last
    package-level [Serve], if any. *)
Fixpoint lastServer (acts : list Action) (srv : option nat) : option nat :=
  match acts with
  | [] => srv
  | ACallPkgServe srv' _ :: rest => lastServer rest srv'
  | _ :: rest => lastServer rest srv
  end.

(** The caller of [Serve] is inside the call of Shutdown. *)
Definition inShutdown (pc : ServePc) : bool :=
  match pc with SvShutdown _ => true | _ => false end.

(** Shutdown has ended and the caller of [Serve] has not panicked. *)
Definition afterShutdown (pc : ServePc) : bool :=
  match pc with
  | SvPostCleanup _ | SvPostRoutine _ _ | SvReturned => true
  | _ => false
  end.

(** How often Shutdown has been called and has ended, by where the caller
    of [Serve] stands. *)
Definition shutdownCount (s : nat) (pc : ServePc) (tr : list Event) : Prop :=
  countIf (isBegin s) tr <= 1 /\
  countIf (isEnd s) tr <= countIf (isBegin s) tr /\
  (beforeShutdown pc = true -> countIf (isBegin s) tr = 0) /\
  (beforeShutdownEnd pc = true -> countIf (isEnd s) tr = 0) /\
  (inShutdown pc = true -> countIf (isBegin s) tr = 1) /\
  (afterShutdown pc = true -> countIf (isEnd s) tr = 1).

(** How Shutdown ended, by where the caller of [Serve] stands after it. *)
Definition exitFacts (s : nat) (pc : ServePc) (tr : list Event) : Prop :=
  match pc with
  | SvPostCleanup p | SvPostRoutine p _ =>
      exists o, EvShutdownEnd s o ∈ tr /\ p = panicked o /\
                (o = ChErr -> EvLog shutdownFailed ∈ tr)
  | SvReturned =>
      exists o, EvShutdownEnd s o ∈ tr /\ panicked o = false /\
                (o = ChErr -> EvLog shutdownFailed ∈ tr)
  | _ => True
  end.

(** A routine of the pre-stack has panicked: the caller of [Serve] is
    gone and Shutdown was not called. *)
Definition prePanicFacts (s : nat) (pc : ServePc) (tr : list Event) : Prop :=
  shutdownCount s pc tr /\
  ((exists r, EvRoutinePanic s PreStack r ∈ tr) ->
   pc = SvPanicked /\ countIf (isBegin s) tr = 0).

(** A routine of the pre-stack panics in the first call of [Serve]. *)
Definition panicRun : list Action :=
  raceActions ++ [ AServe 0 ChNil; AServe 0 ChNil; AServe 0 ChPanic ].

(** How many compare-and-swaps the goroutine of lines 41-49 has made, by
    where it stands. *)
Definition serviceAttempts (pc : option ServicePc) : nat :=
  match pc with
  | Some GClose | Some GExited | Some GPanicked => 1
  | _ => 0
  end.

(** [handleSignal] is on its way to the compare-and-swap, or not started. *)
Definition signalFresh (pc : option SignalPc) : bool :=
  match pc with
  | None | Some HSetInterrupted | Some HIsClosed | Some HCas => true
  | _ => false
  end.

(** [handleSignal] has passed [c.interrupted = true] in this iteration. *)
Definition signalPastSet (pc : option SignalPc) : bool :=
  match pc with
  | Some HIsClosed | Some HCas | Some HClose => true
  | _ => false
  end.

(** Each goroutine of call [x] attempts the compare-and-swap at most
    once. *)
Definition attemptInv (x : nat) (σ : System) : Prop :=
  countIf (casBy x ByService) (trace σ) = serviceAttempts (services σ !! x) /\
  countIf (casBy x BySignal) (trace σ) <= 1 /\
  (signalFresh (signals σ !! x) = true -> countIf (casBy x BySignal) (trace σ) = 0) /\
  (countIf (casBy x BySignal) (trace σ) = 1 \/ signalPastSet (signals σ !! x) = true ->
   interrupted (obj σ) = true).

(** Three signals arrive during one call of [Serve]; the first one
    triggers the shutdown. *)
Definition stormRun : list Action :=
  [ ACallServe fiveSeconds;
    ASignal 0; ASignal 0; ASignal 0; ASignal 0; ASignal 0; ASignal 0;
    ASignal 0; ASignal 0;
    ASignal 0; ASignal 0 ].

(** [handleSignal] of call [s] is between two signals, or at the test of
    [c.interrupted], and [c.interrupted] is set. *)
Definition deaf (s : nat) (σ : System) : Prop :=
  interrupted (obj σ) = true /\
  (signals σ !! s = Some HRange \/ signals σ !! s = Some HInterrupted).

(** A closed [quit] channel was closed by an event of the history. *)
Definition closedBy (s : nat) (σ : System) : Prop :=
  quits σ !! s = Some true -> exists who, EvCloseQuit s who ∈ trace σ.

(** What went onto stack [k] is on it, was popped by a caller, or was
    invoked by a drain. *)
Definition accounted (k : StackSel) (σ : System) : Prop :=
  countIf (pushedOn k) (trace σ)
  = length (routines (getStack k (obj σ)))
    + countIf (poppedFrom k) (trace σ) + countIf (calledFrom k) (trace σ).

(** Every routine on stack [k], popped from it or invoked from it was
    pushed onto it by a caller of [cleanupPush]. *)
Definition registered (k : StackSel) (σ : System) : Prop :=
  (forall r, r ∈ routines (getStack k (obj σ)) -> exists i, EvPushed i k r ∈ trace σ) /\
  (forall s r, EvCall s k r ∈ trace σ -> exists i, EvPushed i k r ∈ trace σ) /\
  (forall j r, EvPopped j k r ∈ trace σ -> exists i, EvPushed i k r ∈ trace σ).

(** The caller of [Serve] has returned or panicked. *)
Definition finished (pc : ServePc) : bool :=
  match pc with SvReturned | SvPanicked => true | _ => false end.

(** An instance on which every call of [Serve] has ended or cannot start
    its cleanup, and whose flag is set. *)
Definition spent (σ : System) : Prop :=
  closing (obj σ) <> 0%Z /\
  length (quits σ) = length (serves σ) /\
  length (services σ) = length (serves σ) /\
  length (signals σ) = length (serves σ) /\
  forall s fr, serves σ !! s = Some fr -> finished (servePc fr) = true \/ stuck s σ.

(** The steps of the caller of [Serve] number [s] from the start of the
    pre-cleanup to its end, with [npre] routines on the pre-stack, [npost]
    on the post-stack, every routine returning and Shutdown ending with
    [o]. *)
Definition serveAlone (s npre : nat) (o : Choice) (npost : nat) : list Action :=
  drainActions s npre ++ AServe s o :: drainActions s npost.

(** What those steps add to the history. *)
Definition serveAloneEvents (s : nat) (t : Z) (pre : list cleanupRoutine) (o : Choice)
    (post : list cleanupRoutine) : list Event :=
  invocations s PreStack (rev pre)
  ++ [EvShutdownBegin s (shutdownContext t)]
  ++ shutdownEndEvents s o
  ++ invocations s PostStack (rev post).

(** The instance with both stacks drained. *)
Definition drained (c : CleanupHTTP) : CleanupHTTP :=
  setStack PostStack (mkRoutineStack []) (setStack PreStack (mkRoutineStack []) c).

(** [ListenAndServe] returns with [e] on a fresh call of [Serve]; no signal
    arrives. *)
Definition serviceExitRun (t : Z) (e o : Choice) (npre npost : nat) : list Action :=
  [ ACallServe t; AService 0 e; AService 0 ChNil; AService 0 ChNil; AServe 0 ChNil ]
  ++ serveAlone 0 npre o npost.

Definition listenEvents (e : Choice) : list Event :=
  match e with ChErr => [EvLog listenFailed] | _ => [] end.

(** A signal arrives on a fresh call of [Serve]; after the shutdown a
    second signal arrives and [ListenAndServe] returns. *)
Definition signalRun (t : Z) (o : Choice) (npre npost : nat) : list Action :=
  [ ACallServe t; ASignal 0; ASignal 0; ASignal 0; ASignal 0; ASignal 0; ASignal 0;
    AServe 0 ChNil ]
  ++ serveAlone 0 npre o npost
  ++ [ ASignal 0; ASignal 0; AService 0 ChNil; AService 0 ChNil ].

(** * Properties *)

(** ** The stack *)

Lemma pop_nil : pop (mkRoutineStack []) = (zeroCleanupRoutine, false, mkRoutineStack []).
Proof. reflexivity. Qed.

Lemma pop_snoc (l : list cleanupRoutine) (r : cleanupRoutine) :
  pop (mkRoutineStack (l ++ [r])) = (r, true, mkRoutineStack l).
Proof.
  unfold pop; cbn [routines].
  rewrite length_app; cbn [length].
  replace (length l + 1 - 1) with (length l) by lia.
  replace (Nat.eqb (length l + 1) 0) with false
    by (symmetry; apply Nat.eqb_neq; lia).
  rewrite app_nth2 by lia. rewrite Nat.sub_diag; cbn [nth].
  rewrite take_app_length. reflexivity.
Qed.

Lemma pop_push (r : cleanupRoutine) (s : routineStack) :
  pop (push r s) = (r, true, s).
Proof. destruct s as [l]. unfold push; cbn [routines]. apply pop_snoc. Qed.

Lemma pop_cases (s : routineStack) :
  (routines s = [] /\ pop s = (zeroCleanupRoutine, false, s)) \/
  (exists l r, routines s = l ++ [r] /\ pop s = (r, true, mkRoutineStack l)).
Proof.
  destruct s as [l]. destruct l as [|x l'] using rev_ind.
  - left. split; reflexivity.
  - right. exists l', x. split; [reflexivity | apply pop_snoc].
Qed.

Lemma pushAll_routines (l : list cleanupRoutine) (s : routineStack) :
  pushAll l s = mkRoutineStack (routines s ++ l).
Proof.
  revert s. induction l as [|x l IH]; intros [l0]; cbn.
  - by rewrite app_nil_r.
  - unfold pushAll in IH. rewrite IH. unfold push; cbn.
    by rewrite <- app_assoc.
Qed.

Lemma cleanupLoop_drains (l : list cleanupRoutine) (fuel : nat) :
  length l < fuel ->
  cleanupLoop fuel (mkRoutineStack l) = Some (rev l, mkRoutineStack []).
Proof.
  revert fuel. induction l as [|x l IH] using rev_ind; intros fuel Hf.
  - destruct fuel; [lia | reflexivity].
  - rewrite length_app in Hf; cbn in Hf.
    destruct fuel as [|fuel]; [lia |].
    cbn [cleanupLoop]. rewrite pop_snoc.
    rewrite IH by lia. rewrite rev_unit. reflexivity.
Qed.

Lemma cleanup_drains k c :
  cleanup k c = Some (rev (routines (getStack k c)), setStack k (mkRoutineStack []) c).
Proof.
  unfold cleanup, len. destruct (getStack k c) as [l]. cbn [routines].
  by rewrite cleanupLoop_drains by lia.
Qed.

Lemma setStack_same k c l :
  routines (getStack k c) = l -> setStack k (mkRoutineStack l) c = c.
Proof. intros <-. destruct c as [? [?] [?] ? ?], k; reflexivity. Qed.

Lemma setStack_twice k st st' c : setStack k st (setStack k st' c) = setStack k st c.
Proof. by destruct k. Qed.

Lemma getStack_setStack k st c : getStack k (setStack k st c) = st.
Proof. by destruct k. Qed.

(** C2: pushes a1, ..., an with no pop in between, then a drain by
    [cleanup], give an, ..., a1 (followed by what the stack held before,
    newest first; nothing when it was empty) and leave the stack empty;
    [pop] returns the routine pushed last and leaves the stack as it was
    before that push; on an empty stack it reports [false]. *)
Theorem C2_lifo (l : list cleanupRoutine) (s : routineStack) :
  (forall k c,
     cleanup k (setStack k (pushAll l s) c)
     = Some (rev l ++ rev (routines s), setStack k (mkRoutineStack []) c)) /\
  cleanupLoop (S (length l)) (pushAll l (mkRoutineStack []))
    = Some (rev l, mkRoutineStack []) /\
  (forall r, pop (push r (pushAll l s)) = (r, true, pushAll l s)) /\
  pop (mkRoutineStack []) = (zeroCleanupRoutine, false, mkRoutineStack []).
Proof.
  repeat split.
  - intros k c. rewrite cleanup_drains, getStack_setStack, setStack_twice.
    rewrite pushAll_routines. cbn [routines]. by rewrite rev_app_distr.
  - rewrite pushAll_routines; cbn [routines app].
    apply cleanupLoop_drains; lia.
  - intros r. apply pop_push.
Qed.

Example C2_test_order :
  cleanup PreStack (setStack PreStack
                      (pushAll [mkCleanupRoutine (Func 1) (IntVal 2);
                                mkCleanupRoutine (Func 2) (IntVal 1)]
                               (mkRoutineStack []))
                      defaultCleanupHTTP)
  = Some ([mkCleanupRoutine (Func 2) (IntVal 1); mkCleanupRoutine (Func 1) (IntVal 2)],
          defaultCleanupHTTP).
Proof. reflexivity. Qed.

(** ** Rejection once the flag is set *)

Lemma isClosed_true (c : CleanupHTTP) : closing c <> 0%Z -> isClosed c = true.
Proof. intros H. unfold isClosed. by apply negb_true_iff, Z.eqb_neq. Qed.

Lemma isClosed_closing (c : CleanupHTTP) : isClosed c = true <-> closing c <> 0%Z.
Proof.
  unfold isClosed. rewrite negb_true_iff. apply Z.eqb_neq.
Qed.

Lemma cleanupPush_closed k f a c :
  closing c <> 0%Z -> cleanupPush k f a c = (c, [pushFailed]).
Proof. intros H. unfold cleanupPush. by rewrite isClosed_true. Qed.

Lemma cleanupPop_closed k c :
  closing c <> 0%Z -> cleanupPop k c = ((NilRoutine, NilIface, false), c, [popFailed]).
Proof. intros H. unfold cleanupPop. by rewrite isClosed_true. Qed.

Lemma cas_closed v : v <> 0%Z -> compareAndSwapInt32 v 0%Z 1%Z = (v, false).
Proof.
  intros H. unfold compareAndSwapInt32.
  by replace (Z.eqb v 0) with false by (symmetry; by apply Z.eqb_neq).
Qed.

(** ** Runs *)

Lemma run_app acts1 acts2 σ :
  run (acts1 ++ acts2) σ = run acts1 σ ≫= run acts2.
Proof.
  revert σ. induction acts1 as [|a acts1 IH]; intros σ; cbn; [done|].
  destruct (step a σ); cbn; [apply IH | done].
Qed.

Lemma reachable_run acts σ σ' :
  reachable σ -> run acts σ = Some σ' -> reachable σ'.
Proof.
  revert σ. induction acts as [|a acts IH]; intros σ Hr H; cbn in H.
  - by injection H as <-.
  - destruct (step a σ) as [σ1|] eqn:Hs; [|done].
    eapply IH; [|done]. by eapply reachable_step.
Qed.

Lemma run_reachable acts srv σ :
  run acts (initial (setServer srv defaultCleanupHTTP)) = Some σ -> reachable σ.
Proof. apply reachable_run, reachable_init. Qed.

(** A property kept by every step holds along every run. *)
Lemma run_invariant (P : System -> Prop) :
  (forall a σ σ', P σ -> step a σ = Some σ' -> P σ') ->
  forall acts σ σ', P σ -> run acts σ = Some σ' -> P σ'.
Proof.
  intros Hstep acts. induction acts as [|a acts IH]; intros σ σ' HP H; cbn in H.
  - by injection H as <-.
  - destruct (step a σ) as [σ1|] eqn:Hs; [|done]. eauto.
Qed.

Ltac step_unfold H :=
  unfold step, serveStep, serviceStep, signalStep, clientStep, routineStep,
    cleanupStep, casStep, closeStep, compareAndSwapInt32 in H.

Ltac step_split H :=
  repeat (cbv beta iota zeta in H;
    match type of H with
    | context [match ?x with _ => _ end] =>
        lazymatch x with
        | context [match _ with _ => _ end] => fail
        | _ => destruct x eqn:?; try discriminate H
        end
    end).

Ltac step_inv H :=
  step_unfold H; step_split H; cbv beta iota zeta in H; injection H as <-.

(** ** Counting *)

Lemma countIf_app {A} (p : A -> bool) (l1 l2 : list A) :
  countIf p (l1 ++ l2) = countIf p l1 + countIf p l2.
Proof. induction l1 as [|x l1 IH]; cbn; [done | rewrite IH; lia]. Qed.

Lemma countIf_insert {A} (p : A -> bool) (l : list A) i x y :
  l !! i = Some y ->
  countIf p (<[i:=x]> l) + (if p y then 1 else 0) = countIf p l + (if p x then 1 else 0).
Proof.
  revert i. induction l as [|z l IH]; intros i H; [done|].
  destruct i as [|i].
  - injection H as ->. cbn. destruct (p x), (p y); lia.
  - specialize (IH i H).
    change (<[S i:=x]> (z :: l)) with (z :: <[i:=x]> l). cbn [countIf].
    destruct (p x), (p y), (p z); lia.
Qed.

Lemma countIf_lookup {A} (p : A -> bool) (l : list A) i y :
  l !! i = Some y -> p y = true -> 1 <= countIf p l.
Proof.
  revert i. induction l as [|z l IH]; intros i H Hp; [done|].
  destruct i as [|i]; cbn in *.
  - injection H as ->. rewrite Hp. lia.
  - specialize (IH i H Hp). lia.
Qed.

Lemma casOutcomes_app tr evs :
  casOutcomes (tr ++ evs) = casOutcomes tr ++ casOutcomes evs.
Proof. apply omap_app. Qed.

(** ** The invariant of the shutdown latch *)

Lemma gateInv_init c : closing c = 0%Z -> gateInv (initial c).
Proof.
  intros Hc. split; cbn; try done.
  - by left.
  - by rewrite Hc.
  - intros ? ? H; by apply elem_of_nil in H.
Qed.

Ltac eqb_facts :=
  repeat match goal with
    | H : Z.eqb _ _ = true |- _ => apply Z.eqb_eq in H
    | H : Z.eqb _ _ = false |- _ => apply Z.eqb_neq in H
    end.

Ltac count_facts :=
  repeat match goal with
    | H : quits _ !! _ = Some true |- _ =>
        lazymatch goal with
        | _ : 1 <= countIf id (quits _) |- _ => fail
        | _ => pose proof (countIf_lookup id _ _ _ H eq_refl)
        end
    | H : services _ !! _ = Some GClose |- _ =>
        lazymatch goal with
        | _ : 1 <= countIf atGClose (services _) |- _ => fail
        | _ => pose proof (countIf_lookup atGClose _ _ _ H eq_refl)
        end
    | H : signals _ !! _ = Some HClose |- _ =>
        lazymatch goal with
        | _ : 1 <= countIf atHClose (signals _) |- _ => fail
        | _ => pose proof (countIf_lookup atHClose _ _ _ H eq_refl)
        end
    end.

Ltac insert_facts :=
  repeat match goal with
    | H : ?l !! ?i = Some ?y |- context [countIf ?p (<[?i:=?x]> ?l)] =>
        lazymatch goal with
        | _ : countIf p (<[i:=x]> l) + _ = _ |- _ => fail
        | _ => pose proof (countIf_insert p l i x y H)
        end
    end.

Ltac t_len := cbn; rewrite ?length_app, ?length_insert; cbn; lia.

Ltac destruct_sel :=
  repeat match goal with k : StackSel |- _ => destruct k end.

Ltac t_count :=
  cbn; insert_facts; rewrite ?countIf_app; cbn in *;
  match goal with
  | |- context [Z.eqb (closing (obj ?σ)) 0] =>
      destruct (Z.eqb_spec (closing (obj σ)) 0)
  | H : context [Z.eqb (closing (obj ?σ)) 0] |- _ =>
      destruct (Z.eqb_spec (closing (obj σ)) 0)
  | _ => idtac
  end; lia.

Ltac t_cas_open :=
  cbn; intros Hc; rewrite ?omap_app; cbn; rewrite ?app_nil_r;
  first [ discriminate Hc | contradiction | auto ].

Ltac t_cas_closed I0 I1 :=
  cbn; intros Hc; rewrite ?omap_app; cbn; rewrite ?app_nil_r;
  first
    [ by apply I1
    | rewrite I0 by assumption; by exists 0
    | let n := fresh "n" in let Hn := fresh "Hn" in
      destruct I1 as [n Hn]; [assumption|]; rewrite Hn; exists (S n);
      by rewrite replicate_S_end ].


Ltac in_old := try (apply elem_of_app; left).

Ltac t_won I :=
  cbn; intros s1 Hl;
  first
    [ apply list_lookup_insert_Some in Hl;
      destruct Hl as [(-> & Heq & _) | (_ & Hl)];
      [ first [ discriminate Heq
              | apply elem_of_app; right; by apply list_elem_of_singleton ]
      | in_old; by apply I ]
    | apply lookup_snoc_Some in Hl;
      destruct Hl as [(_ & Hl) | (_ & Heq)];
      [ in_old; by apply I | discriminate Heq ]
    | in_old; by apply I ].

Ltac elem_inv H :=
  repeat (apply elem_of_cons in H; destruct H as [H | H]; [try discriminate H |]);
  try (by apply elem_of_nil in H).

Ltac t_winner I Iservice Isignal :=
  cbn; intros s1 who Hin;
  first
    [ apply elem_of_app in Hin; destruct Hin as [Hin | Hin];
      [ apply elem_of_app; left; by apply I
      | elem_inv Hin; injection Hin as -> ->; apply elem_of_app; left;
        first [ by apply Iservice | by apply Isignal ] ]
    | by apply I ].

Ltac t_waiter I :=
  cbn; intros s1 fr Hl Hpc;
  first
    [ apply list_lookup_insert_Some in Hl;
      destruct Hl as [(<- & <- & _) | (_ & Hl)];
      [ first [ assumption
              | match goal with
                | H : serves _ !! _ = Some ?f, E : servePc ?f = _ |- _ =>
                    apply (I _ _ H); rewrite E; discriminate
                end ]
      | by apply (I _ _ Hl) ]
    | apply lookup_snoc_Some in Hl;
      destruct Hl as [(_ & Hl) | (_ & <-)];
      [ apply lookup_app_l_Some; by apply (I _ _ Hl) | by destruct Hpc ]
    | match goal with
      | |- <[?s:=true]> _ !! _ = _ =>
          destruct (decide (s = s1)) as [->|];
          [ apply list_lookup_insert_eq; eapply lookup_lt_Some; eassumption
          | rewrite list_lookup_insert_ne by done; by apply (I _ _ Hl) ]
      end
    | by apply (I _ _ Hl) ].

Lemma gateInv_step a σ σ' : gateInv σ -> step a σ = Some σ' -> gateInv σ'.
Proof.
  intros I H. 
  destruct a; step_inv H; destruct I; eqb_facts; count_facts;
   unfold pendingCloses, closedQuits, casOutcomes in *;
   try (exfalso; destruct (Z.eqb (closing (obj σ)) 0); cbn in *; lia);
   destruct_sel.
  all: (split; [t_len | t_len | t_len | cbn; by auto | t_count | t_cas_open
           | t_cas_closed gi_cas_open0 gi_cas_closed0 | t_count | t_count
           | try t_waiter gi_waiter0 | try t_won gi_service_won0 
           | try t_won gi_signal_won0 
           | try t_winner gi_close_by_winner0 gi_service_won0 gi_signal_won0 ]).
Qed.

Lemma gateInv_reachable σ : reachable σ -> gateInv σ.
Proof.
  induction 1 as [srv | a σ σ' _ IH Hs].
  - by apply gateInv_init.
  - by eapply gateInv_step.
Qed.

Lemma countIf_replicate_false n : countIf id (replicate n false) = 0.
Proof. induction n; cbn; auto. Qed.

(** C3: of the attempts that have taken effect, in whatever order the
    goroutines of whatever calls of Serve made them, the first won the
    compare-and-swap and every other one lost; only a winner ever stands at
    [close(quit)], so the number of closes done plus the closes about to
    happen is the number of wins (one, once there was an attempt); no
    channel is closed twice; and every close was done by the winner. *)
Theorem C3_single_trigger acts srv σ :
  run acts (initial (setServer srv defaultCleanupHTTP)) = Some σ ->
  (forall N, length (casOutcomes (trace σ)) = S N ->
             casOutcomes (trace σ) = true :: replicate N false) /\
  countIf isCloseQuit (trace σ) + pendingCloses σ = countIf id (casOutcomes (trace σ)) /\
  countIf isCloseQuit (trace σ) <= 1 /\
  countIf isClosePanic (trace σ) = 0 /\
  (forall s who, EvCloseQuit s who ∈ trace σ -> EvCas s who true ∈ trace σ).
Proof.
  intros Hrun. destruct (gateInv_reachable σ (run_reachable _ _ _ Hrun)).
  assert (Hwins : countIf id (casOutcomes (trace σ))
                  = if Z.eqb (closing (obj σ)) 0 then 0 else 1).
  { destruct (Z.eqb_spec (closing (obj σ)) 0) as [e|n].
    - by rewrite gi_cas_open0.
    - destruct (gi_cas_closed0 n) as [m ->]. cbn.
      by rewrite countIf_replicate_false. }
  repeat split.
  - intros N HN. destruct (Z.eqb_spec (closing (obj σ)) 0) as [e|n].
    + rewrite gi_cas_open0 in HN by done. discriminate HN.
    + destruct (gi_cas_closed0 n) as [m Hm]. rewrite Hm in HN |- *.
      cbn in HN. rewrite length_replicate in HN. by injection HN as ->.
  - rewrite Hwins, gi_closes0. lia.
  - rewrite gi_closes0. destruct (Z.eqb (closing (obj σ)) 0); lia.
  - done.
  - done.
Qed.

Lemma C3_single_trigger_witness :
  casOutcomes (trace (finalOf raceActions)) = [true; false] /\
  countIf isCloseQuit (trace (finalOf raceActions)) = 1 /\
  (forall N, length (casOutcomes (trace (finalOf raceActions))) = S N ->
             casOutcomes (trace (finalOf raceActions)) = true :: replicate N false) /\
  countIf isCloseQuit (trace (finalOf raceActions)) + pendingCloses (finalOf raceActions)
    = countIf id (casOutcomes (trace (finalOf raceActions))) /\
  countIf isCloseQuit (trace (finalOf raceActions)) <= 1 /\
  countIf isClosePanic (trace (finalOf raceActions)) = 0 /\
  (forall s who, EvCloseQuit s who ∈ trace (finalOf raceActions) ->
                 EvCas s who true ∈ trace (finalOf raceActions)).
Proof.
  split; [vm_compute; reflexivity|]. split; [vm_compute; reflexivity|].
  apply (C3_single_trigger raceActions theServer (finalOf raceActions)).
  vm_compute; reflexivity.
Defined.

(** ** The flag is never reset *)

Lemma step_closed a σ σ' :
  closing (obj σ) <> 0%Z -> step a σ = Some σ' ->
  closing (obj σ') = closing (obj σ) /\
  exists evs, trace σ' = trace σ ++ evs /\ forall s who, EvCas s who true ∉ evs.
Proof.
  intros Hc H. destruct a; step_inv H; eqb_facts; try congruence; destruct_sel.
  all: split; [done|]; cbn.
  all: first
    [ exists []; split;
      [ by rewrite app_nil_r | intros ? ? Hin; by apply elem_of_nil in Hin ]
    | eexists; split; [ reflexivity | intros ? ? Hin; elem_inv Hin ] ].
Qed.

Lemma run_closed acts σ σ' :
  closing (obj σ) <> 0%Z -> run acts σ = Some σ' ->
  closing (obj σ') = closing (obj σ) /\
  exists evs, trace σ' = trace σ ++ evs /\ forall s who, EvCas s who true ∉ evs.
Proof.
  revert σ. induction acts as [|a acts IH]; intros σ Hc H; cbn in H.
  - injection H as <-. split; [done|]. exists []. split; [by rewrite app_nil_r|].
    intros ? ? Hin; by apply elem_of_nil in Hin.
  - destruct (step a σ) as [σ1|] eqn:Hs; [|done].
    destruct (step_closed _ _ _ Hc Hs) as (Hc1 & evs1 & Ht1 & Hn1).
    destruct (IH σ1) as (Hc2 & evs2 & Ht2 & Hn2); [congruence | done |].
    split; [congruence|]. exists (evs1 ++ evs2). split.
    + by rewrite Ht2, Ht1, app_assoc.
    + intros s who [Hin|Hin]%elem_of_app; [by eapply Hn1 | by eapply Hn2].
Qed.

(** C10: from a state where the flag is set, whatever the goroutines do,
    the flag keeps its value, [isClosed] answers true, pushes and pops are
    turned away, a compare-and-swap from 0 to 1 fails, and none wins in the
    history that follows. *)
Theorem C10_closing_never_reset acts σ σ' :
  closing (obj σ) <> 0%Z -> run acts σ = Some σ' ->
  closing (obj σ') = closing (obj σ) /\
  isClosed (obj σ') = true /\
  (forall k f a, cleanupPush k f a (obj σ') = (obj σ', [pushFailed])) /\
  (forall k, cleanupPop k (obj σ') = ((NilRoutine, NilIface, false), obj σ', [popFailed])) /\
  compareAndSwapInt32 (closing (obj σ')) 0%Z 1%Z = (closing (obj σ'), false) /\
  (exists evs, trace σ' = trace σ ++ evs /\ forall s who, EvCas s who true ∉ evs).
Proof.
  intros Hc H. destruct (run_closed _ _ _ Hc H) as (Hc' & Hev).
  assert (closing (obj σ') <> 0%Z) by congruence.
  repeat split; try done.
  - by apply isClosed_true.
  - intros. by apply cleanupPush_closed.
  - intros. by apply cleanupPop_closed.
  - by apply cas_closed.
Qed.

Lemma turnedAway_step i pc0 a σ σ' :
  atCheck pc0 = true -> turnedAway i pc0 σ -> step a σ = Some σ' -> turnedAway i pc0 σ'.
Proof.
  intros Hpc0 [Hc Hi] H.
  split; [destruct (step_closed _ _ _ Hc H); congruence|].
  pose proof (isClosed_true _ Hc) as Hclosed.
  destruct a; step_inv H; cbn; try done.
  1,2: destruct Hi; [left | right]; by apply lookup_app_l_Some.
  all: match goal with |- context [<[?j:=_]> _] => destruct (decide (j = i)) as [->|Hne] end;
    [ | by rewrite !list_lookup_insert_ne by done ].
  all: rewrite list_lookup_insert_eq by (eapply lookup_lt_Some; eassumption).
  all: destruct pc0; try discriminate Hpc0; cbn in *;
    destruct Hi as [Hi|Hi]; rewrite Hi in *; simplify_eq; auto.
Qed.

Lemma turnedAway_run i pc0 acts σ σ' :
  atCheck pc0 = true -> turnedAway i pc0 σ -> run acts σ = Some σ' -> turnedAway i pc0 σ'.
Proof.
  intros Hpc0. apply (run_invariant (turnedAway i pc0)).
  intros a σ1 σ2. by apply turnedAway_step.
Qed.

Lemma turnedAway_idle i pc0 σ σ' :
  atCheck pc0 = true -> turnedAway i pc0 σ -> step (AClient i) σ = Some σ' ->
  obj σ' = obj σ /\ clients σ' !! i = Some (rejection pc0).
Proof.
  intros Hpc0 [Hc Hi] H. pose proof (isClosed_true _ Hc) as Hclosed.
  assert (Hlt : i < length (clients σ)).
  { destruct Hi as [Hi|Hi]; by eapply lookup_lt_Some. }
  step_inv H; cbn; try congruence.
  all: rewrite list_lookup_insert_eq by done.
  all: destruct pc0; try discriminate Hpc0; cbn in *;
    destruct Hi as [Hi|Hi]; rewrite Hi in *; simplify_eq; auto.
Qed.

(** C4: with the flag set, [cleanupPush] logs and returns the instance as
    it was, and [cleanupPop] logs and returns (nil, nil, false) and the
    instance as it was.  Among the other goroutines it is the same: a call
    made when the flag is set stays before its check or is turned away,
    whatever runs in between, and its own step leaves the instance alone. *)
Theorem C4_rejected_once_triggered σ k f a acts :
  closing (obj σ) <> 0%Z ->
  cleanupPush k f a (obj σ) = (obj σ, [pushFailed]) /\
  cleanupPop k (obj σ) = ((NilRoutine, NilIface, false), obj σ, [popFailed]) /\
  (forall σ', run (ACallPush k f a :: acts) σ = Some σ' ->
     let i := length (clients σ) in
     (clients σ' !! i = Some (CPushCheck k (mkCleanupRoutine f a)) \/
      clients σ' !! i = Some (CPushReturned false)) /\
     forall σ'', step (AClient i) σ' = Some σ'' ->
       obj σ'' = obj σ' /\ clients σ'' !! i = Some (CPushReturned false)) /\
  (forall σ', run (ACallPop k :: acts) σ = Some σ' ->
     let i := length (clients σ) in
     (clients σ' !! i = Some (CPopCheck k) \/
      clients σ' !! i = Some (CPopReturned NilRoutine NilIface false)) /\
     forall σ'', step (AClient i) σ' = Some σ'' ->
       obj σ'' = obj σ' /\
       clients σ'' !! i = Some (CPopReturned NilRoutine NilIface false)).
Proof.
  intros Hc. split; [by apply cleanupPush_closed|].
  split; [by apply cleanupPop_closed|].
  split; intros σ' H i; cbn in H.
  - assert (Ht : turnedAway i (CPushCheck k (mkCleanupRoutine f a)) σ').
    { eapply turnedAway_run; [done | | exact H]. split; [done|]. left. cbn.
      by apply list_lookup_middle. }
    split; [apply Ht|]. intros σ'' Hs.
    by apply (turnedAway_idle i (CPushCheck k (mkCleanupRoutine f a))).
  - assert (Ht : turnedAway i (CPopCheck k) σ').
    { eapply turnedAway_run; [done | | exact H]. split; [done|]. left. cbn.
      by apply list_lookup_middle. }
    split; [apply Ht|]. intros σ'' Hs.
    by apply (turnedAway_idle i (CPopCheck k)).
Qed.

Lemma C10_closing_never_reset_witness :
  closing (obj (finalOf (fullRun ChNil))) = 1%Z /\
  closing (obj (finalOf (fullRun ChNil ++ secondCall))) = 1%Z /\
  casOutcomes (trace (finalOf (fullRun ChNil ++ secondCall))) = [true; false; false] /\
  isClosed (obj (finalOf (fullRun ChNil ++ secondCall))) = true /\
  (forall k f a,
     cleanupPush k f a (obj (finalOf (fullRun ChNil ++ secondCall)))
     = (obj (finalOf (fullRun ChNil ++ secondCall)), [pushFailed])).
Proof.
  split; [vm_compute; reflexivity|]. split; [vm_compute; reflexivity|].
  split; [vm_compute; reflexivity|].
  assert (H := C10_closing_never_reset secondCall (finalOf (fullRun ChNil))
                 (finalOf (fullRun ChNil ++ secondCall))).
  destruct H as (_ & Hclosed & Hpush & _).
  - vm_compute. discriminate.
  - vm_compute. reflexivity.
  - split; [exact Hclosed | exact Hpush].
Defined.

Lemma C4_rejected_once_triggered_witness :
  cleanupPush PreStack (Func 5) (IntVal 5) (obj (finalOf raceActions))
    = (obj (finalOf raceActions), [pushFailed]) /\
  cleanupPop PostStack (obj (finalOf raceActions))
    = ((NilRoutine, NilIface, false), obj (finalOf raceActions), [popFailed]) /\
  routines (postRoutines (obj (finalOf raceActions))) = [cleanup3; cleanup4].
Proof.
  assert (H := C4_rejected_once_triggered (finalOf raceActions)).
  split; [|split].
  - apply (H PreStack (Func 5) (IntVal 5) []). vm_compute. discriminate.
  - apply (H PostStack NilRoutine NilIface []). vm_compute. discriminate.
  - vm_compute. reflexivity.
Defined.

(** ** Steps of the caller of Serve and steps of the others *)

Lemma serveStep_trans s ch σ σ' :
  step (AServe s ch) σ = Some σ' ->
  exists fr pc' evs,
    serves σ !! s = Some fr /\
    serveTrans s (timeout fr) (servePc fr) pc' evs /\
    serves σ' = <[s := mkServeFrame (timeout fr) pc']> (serves σ) /\
    trace σ' = trace σ ++ evs.
Proof.
  intros H. step_inv H.
  all: match goal with
       | Hfr : serves _ !! _ = Some ?fr, Hpc : servePc ?fr = _ |- _ =>
           exists fr; rewrite Hpc
       end.
  all: cbn; do 2 eexists; (split; [reflexivity|]).
  all: first
    [ split; [ econstructor; fail | split; [reflexivity|]; first [reflexivity | by rewrite app_nil_r] ]
    | split; [ apply (st_shutdown _ _ _ ChNil) | split; reflexivity ]
    | split; [ apply (st_shutdown _ _ _ ChErr) | split; reflexivity ]
    | split; [ apply (st_shutdown _ _ _ ChPanic) | split; reflexivity ]
    | split; [ apply (st_post_done _ _ true) | split; [reflexivity | by rewrite app_nil_r] ]
    | split; [ apply (st_post_done _ _ false) | split; [reflexivity | by rewrite app_nil_r] ] ].
Qed.

Lemma serveStep_flag s ch σ σ' :
  step (AServe s ch) σ = Some σ' ->
  closing (obj σ') = closing (obj σ) /\ quits σ' = quits σ.
Proof. intros H. step_inv H; by cbn. Qed.

Lemma otherStep_frame a σ σ' :
  step a σ = Some σ' -> (forall s ch, a <> AServe s ch) ->
  (serves σ' = serves σ \/ exists t, serves σ' = serves σ ++ [mkServeFrame t SvWaitQuit]) /\
  exists evs, trace σ' = trace σ ++ evs /\ forall s e, e ∈ evs -> serveEvent s e = false.
Proof.
  intros H Ha. destruct a; try (by destruct (Ha s ch)); step_inv H; cbn.
  all: split; [first [by left | right; by eexists] |].
  all: first
    [ exists []; split;
      [ by rewrite app_nil_r | intros ? ? Hin; by apply elem_of_nil in Hin ]
    | eexists; split;
      [ reflexivity | intros ? ? Hin; elem_inv Hin; by subst ] ].
Qed.

Lemma serveTrans_foreign s0 t pc pc' evs s e :
  serveTrans s0 t pc pc' evs -> s <> s0 -> e ∈ evs -> serveEvent s e = false.
Proof.
  intros Ht Hne Hin.
  assert (Nat.eqb s s0 = false) by by apply Nat.eqb_neq.
  destruct Ht; try destruct o; cbn in Hin; elem_inv Hin; by subst; cbn.
Qed.

(** ** Histories *)

Lemma split_snoc {A} (tr : list A) e t1 x t2 :
  tr ++ [e] = t1 ++ x :: t2 ->
  (t2 = [] /\ x = e /\ t1 = tr) \/ (exists t2', t2 = t2' ++ [e] /\ tr = t1 ++ x :: t2').
Proof.
  destruct t2 as [|y t2 _] using rev_ind; intros H.
  - left. apply app_inj_tail in H as [-> ->]. done.
  - right. exists t2.
    rewrite app_comm_cons, app_assoc in H.
    by apply app_inj_tail in H as [-> ->].
Qed.

Lemma routineEvent_serveEvent s k e : routineEvent s k e = true -> serveEvent s e = true.
Proof. destruct e, k; cbn; try done; destruct k0; done. Qed.

Lemma orderingLaw_snoc s tr e :
  orderingLaw s tr ->
  (forall ctx, e = EvShutdownBegin s ctx -> preReturned s None tr) ->
  (routineEvent s PreStack e = true -> noBegin s tr) ->
  (forall o, e = EvShutdownEnd s o -> exists ctx, EvShutdownBegin s ctx ∈ tr) ->
  (routineEvent s PostStack e = true -> exists o, EvShutdownEnd s o ∈ tr) ->
  orderingLaw s (tr ++ [e]).
Proof.
  intros (L1 & L2 & L3) Hbegin Hpre Hend Hpost. repeat split.
  - apply split_snoc in H as [(-> & Hx & ->) | (t2' & -> & ->)].
    + intros u1 r u2 Hu. destruct (Hbegin ctx (eq_sym Hx) u1 r u2 Hu); done.
    + by apply (L1 _ _ _ eq_refl).
  - apply split_snoc in H as [(-> & Hx & ->) | (t2' & -> & ->)].
    + intros e0 Hin. by apply elem_of_nil in Hin.
    + intros e0 [Hin | ->%list_elem_of_singleton]%elem_of_app.
      * by apply (L1 _ _ _ eq_refl).
      * destruct (routineEvent s PreStack e) eqn:He; [|done].
        destruct (Hpre eq_refl ctx). apply elem_of_app. right. by left.
  - intros t1 o t2 H. apply split_snoc in H as [(-> & Hx & ->) | (t2' & -> & ->)].
    + by apply (Hend o).
    + by apply (L2 _ _ _ eq_refl).
  - intros t1 x t2 H Hx. apply split_snoc in H as [(-> & -> & ->) | (t2' & -> & ->)].
    + by apply Hpost.
    + by apply (L3 _ _ _ eq_refl).
Qed.

Lemma noBegin_snoc s tr e :
  noBegin s tr -> (forall ctx, e <> EvShutdownBegin s ctx) -> noBegin s (tr ++ [e]).
Proof.
  intros Hn He ctx [Hin | Hin%list_elem_of_singleton]%elem_of_app.
  - by apply (Hn ctx).
  - by destruct (He ctx).
Qed.

Lemma preReturned_snoc s running tr e :
  preReturned s running tr -> (forall r, e <> EvCall s PreStack r) ->
  preReturned s running (tr ++ [e]).
Proof.
  intros Hp He u1 r u2 H.
  apply split_snoc in H as [(-> & Hx & ->) | (t2' & -> & ->)].
  - by destruct (He r).
  - destruct (Hp _ _ _ eq_refl) as [Hin | Hrun]; [left | by right].
    apply elem_of_app. by left.
Qed.

Lemma preReturned_call s tr r :
  preReturned s None tr -> preReturned s (Some r) (tr ++ [EvCall s PreStack r]).
Proof.
  intros Hp u1 r' u2 H.
  apply split_snoc in H as [(-> & Hx & ->) | (t2' & -> & ->)].
  - right. by injection Hx as ->.
  - destruct (Hp _ _ _ eq_refl) as [Hin | Hrun]; [left | done].
    apply elem_of_app. by left.
Qed.

Lemma preReturned_ret s tr r :
  preReturned s (Some r) tr -> preReturned s None (tr ++ [EvRet s PreStack r]).
Proof.
  intros Hp u1 r' u2 H.
  apply split_snoc in H as [(-> & Hx & ->) | (t2' & -> & ->)]; [done|].
  left. apply elem_of_app.
  destruct (Hp _ _ _ eq_refl) as [Hin | Hrun]; [by left | right].
  injection Hrun as ->. by left.
Qed.

Lemma quiet_pre s tr :
  (forall e, e ∈ tr -> serveEvent s e = false) -> noBegin s tr /\ preReturned s None tr.
Proof.
  intros Hq. split.
  - intros ctx Hin. specialize (Hq _ Hin). cbn in Hq. by rewrite Nat.eqb_refl in Hq.
  - intros u1 r u2 ->.
    assert (Hin : EvCall s PreStack r ∈ u1 ++ EvCall s PreStack r :: u2).
    { apply elem_of_app. right. by left. }
    specialize (Hq _ Hin). cbn in Hq. by rewrite Nat.eqb_refl in Hq.
Qed.

Lemma orderingLaw_snoc_other s tr e :
  serveEvent s e = false -> orderingLaw s tr -> orderingLaw s (tr ++ [e]).
Proof.
  intros He L. apply orderingLaw_snoc; [done | ..].
  - intros ctx ->. cbn in He. by rewrite Nat.eqb_refl in He.
  - intros Hr. apply routineEvent_serveEvent in Hr. congruence.
  - intros o ->. cbn in He. by rewrite Nat.eqb_refl in He.
  - intros Hr. apply routineEvent_serveEvent in Hr. congruence.
Qed.

Lemma phaseFacts_snoc_other s pc tr e :
  serveEvent s e = false -> phaseFacts s pc tr -> phaseFacts s pc (tr ++ [e]).
Proof.
  intros He. 
  assert (Hb : forall ctx, e <> EvShutdownBegin s ctx).
  { intros ctx ->. cbn in He. by rewrite Nat.eqb_refl in He. }
  assert (Hc : forall r, e <> EvCall s PreStack r).
  { intros r ->. cbn in He. by rewrite Nat.eqb_refl in He. }
  destruct pc; cbn; try done.
  - intros Hq e0 [Hin | ->%list_elem_of_singleton]%elem_of_app; auto.
  - intros [Hn Hp]. split; [by apply noBegin_snoc | by apply preReturned_snoc].
  - intros [Hn Hp]. split; [by apply noBegin_snoc | by apply preReturned_snoc].
  - intros [c0 Hin]. exists c0. apply elem_of_app. by left.
  - intros [o Hin]. exists o. apply elem_of_app. by left.
  - intros [o Hin]. exists o. apply elem_of_app. by left.
Qed.

Lemma order_app_other s pc tr evs :
  (forall e, e ∈ evs -> serveEvent s e = false) ->
  orderingLaw s tr /\ phaseFacts s pc tr ->
  orderingLaw s (tr ++ evs) /\ phaseFacts s pc (tr ++ evs).
Proof.
  revert tr. induction evs as [|e evs IH]; intros tr He H.
  - by rewrite app_nil_r.
  - replace (tr ++ e :: evs) with ((tr ++ [e]) ++ evs) by by rewrite <- app_assoc.
    apply IH.
    + intros e0 Hin. apply He. by right.
    + destruct H as [L P]. assert (serveEvent s e = false) by (apply He; by left).
      split; [by apply orderingLaw_snoc_other | by apply phaseFacts_snoc_other].
Qed.

Ltac snoc_law :=
  apply orderingLaw_snoc; try done; cbn; rewrite ?Nat.eqb_refl; try done.

Lemma order_own s t pc pc' evs tr :
  serveTrans s t pc pc' evs ->
  orderingLaw s tr /\ phaseFacts s pc tr ->
  orderingLaw s (tr ++ evs) /\ phaseFacts s pc' (tr ++ evs).
Proof.
  intros Ht [L P]. destruct Ht; cbn in P.
  - rewrite app_nil_r. split; [done|]. by apply quiet_pre.
  - destruct P as [Hn Hp]. split; [snoc_law|].
    split; [by apply noBegin_snoc | by apply preReturned_call].
  - destruct P as [Hn Hp]. split; [snoc_law|].
    exists (shutdownContext t). apply elem_of_app. right. by left.
  - destruct P as [Hn Hp]. split; [snoc_law|].
    split; [by apply noBegin_snoc | by apply preReturned_ret].
  - destruct P as [Hn Hp]. split; [snoc_law | done].
  - assert (H1 : orderingLaw s (tr ++ [EvShutdownEnd s o]) /\
                 phaseFacts s (SvPostCleanup false) (tr ++ [EvShutdownEnd s o])).
    { split; [snoc_law|].
      exists o. apply elem_of_app. right. by left. }
    destruct o; cbn [shutdownEndEvents]; try exact H1.
    replace (tr ++ [EvShutdownEnd s ChErr; EvLog shutdownFailed])
      with ((tr ++ [EvShutdownEnd s ChErr]) ++ [EvLog shutdownFailed])
      by by rewrite <- app_assoc.
    apply (order_app_other s (SvPostCleanup false)); [|done].
    intros e ->%list_elem_of_singleton. done.
  - split; [snoc_law|].
    destruct P as [o Hin]. exists o. apply elem_of_app. by left.
  - rewrite app_nil_r. split; [done|]. by destruct p.
  - split; [snoc_law|].
    destruct P as [o Hin]. exists o. apply elem_of_app. by left.
  - split; [snoc_law | done].
Qed.

Lemma pcOf_other s σ σ' :
  serves σ' = serves σ \/ (exists t, serves σ' = serves σ ++ [mkServeFrame t SvWaitQuit]) ->
  pcOf s σ' = pcOf s σ.
Proof.
  unfold pcOf. intros [-> | [t ->]]; [done|].
  destruct (serves σ !! s) as [fr|] eqn:Hs.
  - by rewrite (lookup_app_l_Some _ _ _ _ Hs).
  - destruct ((serves σ ++ [mkServeFrame t SvWaitQuit]) !! s) as [fr|] eqn:Hs'; [|done].
    apply lookup_snoc_Some in Hs' as [[_ Hs'] | [_ <-]]; [congruence | done].
Qed.

Lemma orderInv_step s a σ σ' : orderInv s σ -> step a σ = Some σ' -> orderInv s σ'.
Proof.
  intros I H. unfold orderInv in *.
  assert (Hother : (forall s0 ch, a <> AServe s0 ch) -> 
            orderingLaw s (trace σ') /\ phaseFacts s (pcOf s σ') (trace σ')).
  { intros Ha. destruct (otherStep_frame _ _ _ H Ha) as (Hs & evs & -> & Hev).
    rewrite (pcOf_other s σ σ' Hs). apply order_app_other; [|done].
    intros e. apply Hev. }
  destruct a; try (apply Hother; intros; discriminate).
  clear Hother.
  destruct (serveStep_trans _ _ _ _ H) as (fr & pc' & evs & Hfr & Ht & Hs & ->).
  destruct (decide (s = s0)) as [->|Hne].
  - assert (Hpc : pcOf s0 σ = servePc fr) by (unfold pcOf; by rewrite Hfr).
    assert (Hpc' : pcOf s0 σ' = pc').
    { unfold pcOf. rewrite Hs, list_lookup_insert_eq; [done|].
      by eapply lookup_lt_Some. }
    rewrite Hpc'. rewrite Hpc in I. by eapply order_own.
  - assert (Hpc' : pcOf s σ' = pcOf s σ).
    { unfold pcOf. by rewrite Hs, list_lookup_insert_ne. }
    rewrite Hpc'. apply order_app_other; [|done].
    intros e. by eapply serveTrans_foreign.
Qed.

Lemma orderInv_reachable s σ : reachable σ -> orderInv s σ.
Proof.
  induction 1 as [srv | a σ σ' _ IH Hs].
  - split; cbn.
    + repeat split; intros; by destruct t1.
    + intros e Hin. by apply elem_of_nil in Hin.
  - by eapply orderInv_step.
Qed.

(** C1: in every history of the package and for every call of Serve: when
    Shutdown is called, every routine popped from the pre-stack and invoked
    before has returned, and no routine of the pre-stack is invoked or
    running afterwards; Shutdown ends only after it was called; and a
    routine popped from the post-stack is invoked only after Shutdown has
    ended (returned, failed or panicked). *)
Theorem C1_ordering acts srv σ s :
  run acts (initial (setServer srv defaultCleanupHTTP)) = Some σ ->
  orderingLaw s (trace σ).
Proof.
  intros H. apply (orderInv_reachable s σ). by eapply run_reachable.
Qed.

(** ** The context of Shutdown *)

Lemma serveTrans_begin s0 t pc pc' evs s ctx :
  serveTrans s0 t pc pc' evs -> EvShutdownBegin s ctx ∈ evs ->
  s = s0 /\ ctx = shutdownContext t.
Proof.
  intros Ht Hin. destruct Ht; try destruct o; cbn in Hin; elem_inv Hin.
  by injection Hin as -> ->.
Qed.

Lemma contextInv_step a σ σ' : contextInv σ -> step a σ = Some σ' -> contextInv σ'.
Proof.
  intros I H s ctx Hin.
  assert (Hother : (forall s0 ch, a <> AServe s0 ch) -> 
            exists fr, serves σ' !! s = Some fr /\ ctx = shutdownContext (timeout fr)).
  { intros Ha. destruct (otherStep_frame _ _ _ H Ha) as (Hs & evs & Htr & Hev).
    rewrite Htr in Hin. apply elem_of_app in Hin as [Hin | Hin].
    - destruct (I _ _ Hin) as (fr & Hfr & ->). exists fr. split; [|done].
      destruct Hs as [-> | [t ->]]; [done | by apply lookup_app_l_Some].
    - specialize (Hev s _ Hin). cbn in Hev. by rewrite Nat.eqb_refl in Hev. }
  destruct a; try (apply Hother; intros; discriminate). clear Hother.
  destruct (serveStep_trans _ _ _ _ H) as (fr & pc' & evs & Hfr & Ht & Hs & Htr).
  assert (Hlt : s0 < length (serves σ)) by by eapply lookup_lt_Some.
  rewrite Htr in Hin. rewrite Hs. apply elem_of_app in Hin as [Hin | Hin].
  - destruct (I _ _ Hin) as (fr1 & Hfr1 & ->).
    destruct (decide (s0 = s)) as [->|Hne].
    + rewrite list_lookup_insert_eq by done. eexists. split; [done|]. cbn. congruence.
    + rewrite list_lookup_insert_ne by done. by exists fr1.
  - destruct (serveTrans_begin _ _ _ _ _ _ _ Ht Hin) as [-> ->].
    rewrite list_lookup_insert_eq by done. by eexists.
Qed.

Lemma contextInv_reachable σ : reachable σ -> contextInv σ.
Proof.
  induction 1 as [srv | a σ σ' _ IH Hs].
  - intros s ctx Hin. by apply elem_of_nil in Hin.
  - by eapply contextInv_step.
Qed.

Lemma calledWith_step s t a σ σ' :
  calledWith s t σ -> step a σ = Some σ' -> calledWith s t σ'.
Proof.
  intros [pc Hpc] H.
  assert (Hother : (forall s0 ch, a <> AServe s0 ch) -> calledWith s t σ').
  { intros Ha. destruct (otherStep_frame _ _ _ H Ha) as (Hs & _).
    exists pc. destruct Hs as [-> | [t0 ->]]; [done | by apply lookup_app_l_Some]. }
  destruct a; try (apply Hother; intros; discriminate). clear Hother.
  destruct (serveStep_trans _ _ _ _ H) as (fr & pc' & evs & Hfr & Ht & Hs & Htr).
  assert (Hlt : s0 < length (serves σ)) by by eapply lookup_lt_Some.
  unfold calledWith. rewrite Hs.
  destruct (decide (s0 = s)) as [->|Hne].
  - rewrite list_lookup_insert_eq by done. exists pc'.
    rewrite Hpc in Hfr. by injection Hfr as <-.
  - rewrite list_lookup_insert_ne by done. by exists pc.
Qed.

(** C6: a call of Serve with timeout [t], made at any moment, by the
    method or by the package-level function: whenever its Shutdown is
    called, the context it is given is [WithTimeout(Background, t)], with
    deadline [t], when [0 < t], and [Background], with no deadline,
    otherwise. *)
Theorem C6_shutdown_context acts1 srv σ1 call srv' t acts2 σ ctx :
  run acts1 (initial (setServer srv defaultCleanupHTTP)) = Some σ1 ->
  call = ACallServe t \/ call = ACallPkgServe srv' t ->
  run (call :: acts2) σ1 = Some σ ->
  EvShutdownBegin (length (serves σ1)) ctx ∈ trace σ ->
  ctx = (if Z.ltb 0 t then WithTimeout Background t else Background) /\
  hasDeadline ctx = (if Z.ltb 0 t then Some t else None).
Proof.
  intros H1 Hcall H2 Hin.
  assert (Hr : reachable σ).
  { eapply reachable_run; [|exact H2]. by eapply run_reachable. }
  destruct (contextInv_reachable σ Hr _ _ Hin) as (fr & Hfr & ->).
  assert (Hc : calledWith (length (serves σ1)) t σ).
  { cbn in H2. destruct (step call σ1) as [σc|] eqn:Hs; [|done].
    eapply (run_invariant (calledWith (length (serves σ1)) t)); [| |exact H2].
    - intros a0 τ τ'. apply calledWith_step.
    - exists SvWaitQuit.
      destruct Hcall as [-> | ->]; injection Hs as <-; cbn; by apply list_lookup_middle. }
  destruct Hc as [pc Hpc]. rewrite Hpc in Hfr. injection Hfr as <-. cbn.
  unfold shutdownContext. by destruct (Z.ltb 0 t).
Qed.

Ltac in_list :=
  apply list_elem_of_In; vm_compute; repeat (first [left; reflexivity | right]).

Lemma C6_shutdown_context_witness :
  (WithTimeout Background fiveSeconds
     = (if Z.ltb 0 fiveSeconds then WithTimeout Background fiveSeconds else Background) /\
   hasDeadline (WithTimeout Background fiveSeconds)
     = (if Z.ltb 0 fiveSeconds then Some fiveSeconds else None)) /\
  (Background = (if Z.ltb 0 0 then WithTimeout Background 0%Z else Background) /\
   hasDeadline Background = (if Z.ltb 0 0 then Some 0%Z else None)).
Proof.
  split.
  - apply (C6_shutdown_context pushes theServer (finalOf pushes)
             (ACallServe fiveSeconds) None fiveSeconds
             (tail (raceSteps) ++ serveToEnd ChNil)
             (finalOf (fullRun ChNil))).
    + vm_compute; reflexivity.
    + by left.
    + vm_compute; reflexivity.
    + in_list.
  - apply (C6_shutdown_context [] theServer start
             (ACallServe 0%Z) None 0%Z (tail unboundedRun) (finalOf unboundedRun)).
    + vm_compute; reflexivity.
    + by left.
    + vm_compute; reflexivity.
    + in_list.
Defined.

Lemma C1_ordering_witness :
  List.filter (serveEvent 0) (trace (finalOf (fullRun ChErr)))
    = [ EvCall 0 PreStack cleanup2; EvRet 0 PreStack cleanup2;
        EvCall 0 PreStack cleanup1; EvRet 0 PreStack cleanup1;
        EvShutdownBegin 0 (WithTimeout Background fiveSeconds);
        EvShutdownEnd 0 ChErr;
        EvCall 0 PostStack cleanup4; EvRet 0 PostStack cleanup4;
        EvCall 0 PostStack cleanup3; EvRet 0 PostStack cleanup3 ] /\
  orderingLaw 0 (trace (finalOf (fullRun ChErr))).
Proof.
  split; [vm_compute; reflexivity|].
  apply (C1_ordering (fullRun ChErr) theServer (finalOf (fullRun ChErr)) 0).
  vm_compute; reflexivity.
Defined.

(** ** Draining a stack *)

Section Drain.
Variables (s : nat) (k : StackSel).
Variables (pcLoop : ServePc) (pcCall : cleanupRoutine -> ServePc).

Hypothesis loop_pop : forall σ t r st',
  serves σ !! s = Some (mkServeFrame t pcLoop) ->
  pop (getStack k (obj σ)) = (r, true, st') ->
  step (AServe s ChNil) σ
  = Some (emit [EvCall s k r]
            (gotoServe s t (pcCall r) (setObj (setStack k st' (obj σ)) σ))).

Hypothesis loop_ret : forall σ t r,
  serves σ !! s = Some (mkServeFrame t (pcCall r)) ->
  isNilRoutine (routine r) = false ->
  step (AServe s ChNil) σ = Some (emit [EvRet s k r] (gotoServe s t pcLoop σ)).

Lemma loop_drains l : forall σ t,
  serves σ !! s = Some (mkServeFrame t pcLoop) ->
  routines (getStack k (obj σ)) = l ->
  callable l ->
  run (loopActions s (length l)) σ
  = Some (emit (invocations s k (rev l))
            (setObj (setStack k (mkRoutineStack []) (obj σ)) σ)).
Proof.
  induction l as [|r l IH] using rev_ind; intros σ t Hs Hl Hc.
  - cbn. f_equal. rewrite (setStack_same k (obj σ) [] Hl).
    destruct σ as [c q sv sc sg cl tr]. unfold emit, setObj; cbn.
    by rewrite app_nil_r.
  - rewrite length_app, Nat.add_1_r. cbn [loopActions run].
    apply Forall_app in Hc as [Hc Hr]. apply Forall_inv in Hr.
    assert (Hpop : pop (getStack k (obj σ)) = (r, true, mkRoutineStack l)).
    { destruct (getStack k (obj σ)) as [l0]. cbn in Hl. subst l0. apply pop_snoc. }
    assert (Hlt : s < length (serves σ)) by by eapply lookup_lt_Some.
    rewrite (loop_pop σ t r _ Hs Hpop).
    rewrite (loop_ret _ t r); [| cbn; by apply list_lookup_insert_eq | done].
    rewrite (IH _ t); [| cbn | cbn; by rewrite getStack_setStack | done].
    + f_equal. unfold emit, setObj, gotoServe, setServes; cbn.
      rewrite list_insert_insert_eq, (list_insert_id _ _ _ Hs).
      rewrite setStack_twice, rev_unit. cbn. by rewrite <- !app_assoc.
    + rewrite list_insert_insert_eq. by apply list_lookup_insert_eq.
Qed.
End Drain.

Lemma pre_pop s σ t r st' :
  serves σ !! s = Some (mkServeFrame t SvPreCleanup) ->
  pop (getStack PreStack (obj σ)) = (r, true, st') ->
  step (AServe s ChNil) σ
  = Some (emit [EvCall s PreStack r]
            (gotoServe s t (SvPreRoutine r) (setObj (setStack PreStack st' (obj σ)) σ))).
Proof.
  intros Hs Hpop. unfold step, serveStep. rewrite Hs. cbn [servePc timeout].
  unfold cleanupStep. by rewrite Hpop.
Qed.

Lemma pre_ret s σ t r :
  serves σ !! s = Some (mkServeFrame t (SvPreRoutine r)) ->
  isNilRoutine (routine r) = false ->
  step (AServe s ChNil) σ = Some (emit [EvRet s PreStack r] (gotoServe s t SvPreCleanup σ)).
Proof.
  intros Hs Hr. unfold step, serveStep. rewrite Hs. cbn [servePc timeout].
  unfold routineStep. by rewrite Hr.
Qed.

Lemma pre_empty s σ t ch :
  serves σ !! s = Some (mkServeFrame t SvPreCleanup) ->
  routines (preRoutines (obj σ)) = [] ->
  step (AServe s ch) σ
  = Some (emit [EvShutdownBegin s (shutdownContext t)]
            (gotoServe s t (SvShutdown (shutdownContext t)) σ)).
Proof.
  intros Hs Hl. unfold step, serveStep. rewrite Hs. cbn [servePc timeout].
  unfold cleanupStep, pop. cbn [getStack]. by rewrite Hl.
Qed.

Lemma shutdown_ends s σ t ctx o :
  serves σ !! s = Some (mkServeFrame t (SvShutdown ctx)) ->
  step (AServe s o) σ
  = Some (emit (shutdownEndEvents s o)
            (gotoServe s t (SvPostCleanup (match o with ChPanic => true | _ => false end)) σ)).
Proof.
  intros Hs. unfold step, serveStep. rewrite Hs. cbn [servePc timeout]. by destruct o.
Qed.

Lemma post_pop p s σ t r st' :
  serves σ !! s = Some (mkServeFrame t (SvPostCleanup p)) ->
  pop (getStack PostStack (obj σ)) = (r, true, st') ->
  step (AServe s ChNil) σ
  = Some (emit [EvCall s PostStack r]
            (gotoServe s t (SvPostRoutine p r) (setObj (setStack PostStack st' (obj σ)) σ))).
Proof.
  intros Hs Hpop. unfold step, serveStep. rewrite Hs. cbn [servePc timeout].
  unfold cleanupStep. by rewrite Hpop.
Qed.

Lemma post_ret p s σ t r :
  serves σ !! s = Some (mkServeFrame t (SvPostRoutine p r)) ->
  isNilRoutine (routine r) = false ->
  step (AServe s ChNil) σ
  = Some (emit [EvRet s PostStack r] (gotoServe s t (SvPostCleanup p) σ)).
Proof.
  intros Hs Hr. unfold step, serveStep. rewrite Hs. cbn [servePc timeout].
  unfold routineStep. by rewrite Hr.
Qed.

Lemma post_empty p s σ t ch :
  serves σ !! s = Some (mkServeFrame t (SvPostCleanup p)) ->
  routines (postRoutines (obj σ)) = [] ->
  step (AServe s ch) σ = Some (gotoServe s t (if p then SvPanicked else SvReturned) σ).
Proof.
  intros Hs Hl. unfold step, serveStep. rewrite Hs. cbn [servePc timeout].
  unfold cleanupStep, pop. cbn [getStack]. by rewrite Hl.
Qed.

Lemma drain_pre s t σ :
  serves σ !! s = Some (mkServeFrame t SvPreCleanup) ->
  callable (routines (preRoutines (obj σ))) ->
  run (drainActions s (len (preRoutines (obj σ)))) σ
  = Some (emit [EvShutdownBegin s (shutdownContext t)]
            (gotoServe s t (SvShutdown (shutdownContext t))
               (emit (invocations s PreStack (rev (routines (preRoutines (obj σ)))))
                  (setObj (setStack PreStack (mkRoutineStack []) (obj σ)) σ)))).
Proof.
  intros Hs Hc. unfold drainActions, len. rewrite run_app.
  pose proof (loop_drains s PreStack SvPreCleanup SvPreRoutine
                (pre_pop s) (pre_ret s) _ σ t Hs eq_refl Hc) as Hd.
  cbn [getStack] in Hd. rewrite Hd. cbn [mbind option_bind run]. by rewrite (pre_empty s _ t).
Qed.

Lemma drain_post p s t σ :
  serves σ !! s = Some (mkServeFrame t (SvPostCleanup p)) ->
  callable (routines (postRoutines (obj σ))) ->
  run (drainActions s (len (postRoutines (obj σ)))) σ
  = Some (gotoServe s t (if p then SvPanicked else SvReturned)
            (emit (invocations s PostStack (rev (routines (postRoutines (obj σ)))))
               (setObj (setStack PostStack (mkRoutineStack []) (obj σ)) σ))).
Proof.
  intros Hs Hc. unfold drainActions, len. rewrite run_app.
  pose proof (loop_drains s PostStack (SvPostCleanup p) (SvPostRoutine p)
                (post_pop p s) (post_ret p s) _ σ t Hs eq_refl Hc) as Hd.
  cbn [getStack] in Hd. rewrite Hd. cbn [mbind option_bind run]. by rewrite (post_empty p s _ t).
Qed.

Lemma shutdown_then_drain σ s t ctx o :
  serves σ !! s = Some (mkServeFrame t (SvShutdown ctx)) ->
  callable (routines (postRoutines (obj σ))) ->
  run (AServe s o :: drainActions s (len (postRoutines (obj σ)))) σ
  = Some (gotoServe s t (serveExit o)
            (emit (invocations s PostStack (rev (routines (postRoutines (obj σ)))))
               (setObj (setStack PostStack (mkRoutineStack []) (obj σ))
                  (emit (shutdownEndEvents s o)
                     (gotoServe s t (SvPostCleanup (panicked o)) σ))))).
Proof.
  intros Hs Hc. cbn [run]. rewrite (shutdown_ends s σ t ctx o Hs).
  assert (Hlt : s < length (serves σ)) by by eapply lookup_lt_Some.
  fold (panicked o).
  set (σ1 := emit (shutdownEndEvents s o) (gotoServe s t (SvPostCleanup (panicked o)) σ)).
  pose proof (drain_post (panicked o) s t σ1) as Hd.
  change (obj σ1) with (obj σ) in Hd. rewrite Hd; [| by apply list_lookup_insert_eq | done].
  by destruct o.
Qed.

(** C5: when Shutdown is running, whatever its outcome [o] (it returns
    nil, returns an error such as a timeout, or panics), the steps of the
    caller that follow, every routine returning, invoke all the routines
    of the post-stack, last pushed first, one after the other, and leave
    the stack empty; this is what [cleanup] computes on the post-stack; then
    Serve returns, or goes on panicking when Shutdown panicked. *)
Theorem C5_post_drain_whatever_shutdown σ s t ctx o :
  serves σ !! s = Some (mkServeFrame t (SvShutdown ctx)) ->
  callable (routines (postRoutines (obj σ))) ->
  exists σ',
    run (AServe s o :: drainActions s (len (postRoutines (obj σ)))) σ = Some σ' /\
    trace σ' = trace σ ++ shutdownEndEvents s o
                 ++ invocations s PostStack (rev (routines (postRoutines (obj σ)))) /\
    cleanup PostStack (obj σ) = Some (rev (routines (postRoutines (obj σ))), obj σ') /\
    postRoutines (obj σ') = mkRoutineStack [] /\
    pcOf s σ' = serveExit o.
Proof.
  intros Hs Hc.
  assert (Hlt : s < length (serves σ)) by by eapply lookup_lt_Some.
  eexists. split; [by apply (shutdown_then_drain σ s t ctx o)|].
  cbn. rewrite cleanup_drains. repeat split.
  - by rewrite <- app_assoc.
  - unfold pcOf; cbn. by rewrite list_insert_insert_eq, list_lookup_insert_eq.
Qed.

Lemma past_wait_closed σ s fr :
  gateInv σ -> serves σ !! s = Some fr -> servePc fr <> SvWaitQuit ->
  closing (obj σ) = 1%Z.
Proof.
  intros I Hs Hpc. destruct I.
  pose proof (gi_waiter0 _ _ Hs Hpc) as Hq.
  pose proof (countIf_lookup id _ _ _ Hq eq_refl) as Hn.
  unfold closedQuits in *.
  destruct (Z.eqb_spec (closing (obj σ)) 0); [lia|].
  by destruct gi_flag0.
Qed.

(** C9: when the caller of Serve starts the pre-cleanup, the flag is set:
    [isClosed] answers true and [cleanupPop] is turned away on either
    stack.  The drain does not ask: the steps of the caller, every routine
    returning and Shutdown ending with any outcome [o], invoke all the
    routines that are on the pre-stack, last pushed first, then call
    Shutdown, then invoke all the routines that are on the post-stack, last
    pushed first; both stacks end empty and the flag is still set. *)
Theorem C9_drain_ignores_closed acts srv σ s t o :
  run acts (initial (setServer srv defaultCleanupHTTP)) = Some σ ->
  serves σ !! s = Some (mkServeFrame t SvPreCleanup) ->
  callable (routines (preRoutines (obj σ))) ->
  callable (routines (postRoutines (obj σ))) ->
  isClosed (obj σ) = true /\
  (forall k, cleanupPop k (obj σ) = ((NilRoutine, NilIface, false), obj σ, [popFailed])) /\
  exists σ',
    run (drainActions s (len (preRoutines (obj σ)))
           ++ AServe s o :: drainActions s (len (postRoutines (obj σ)))) σ = Some σ' /\
    trace σ' = trace σ
                 ++ invocations s PreStack (rev (routines (preRoutines (obj σ))))
                 ++ [EvShutdownBegin s (shutdownContext t)]
                 ++ shutdownEndEvents s o
                 ++ invocations s PostStack (rev (routines (postRoutines (obj σ)))) /\
    preRoutines (obj σ') = mkRoutineStack [] /\
    postRoutines (obj σ') = mkRoutineStack [] /\
    isClosed (obj σ') = true /\
    pcOf s σ' = serveExit o.
Proof.
  intros Hrun Hs Hpre Hpost.
  assert (Hc : closing (obj σ) = 1%Z).
  { eapply past_wait_closed; [|exact Hs|done].
    by eapply gateInv_reachable, run_reachable. }
  assert (Hlt : s < length (serves σ)) by by eapply lookup_lt_Some.
  split; [apply isClosed_true; by rewrite Hc|].
  split; [intros k; apply cleanupPop_closed; by rewrite Hc|].
  rewrite run_app, (drain_pre s t σ Hs Hpre). cbn [mbind option_bind].
  set (σ1 := emit _ _).
  pose proof (shutdown_then_drain σ1 s t (shutdownContext t) o) as Hd.
  change (obj σ1) with (setStack PreStack (mkRoutineStack []) (obj σ)) in Hd.
  cbn [setStack postRoutines] in Hd.
  rewrite Hd; [| cbn; by apply list_lookup_insert_eq | done].
  eexists. split; [reflexivity|]. cbn.
  split; [by rewrite <- !app_assoc|]. split; [done|]. split; [done|].
  split; [apply isClosed_true; cbn; by rewrite Hc|].
  unfold pcOf; cbn. by rewrite !list_insert_insert_eq, list_lookup_insert_eq.
Qed.

Ltac same_lookup :=
  repeat match goal with
    | H1 : ?x = Some _, H2 : ?x = Some _ |- _ => rewrite H1 in H2; injection H2 as <-
    end.

Ltac t_look_eq :=
  first
    [ assumption
    | by apply lookup_app_l_Some
    | match goal with
      | |- <[?j:=_]> _ !! ?i = _ =>
          destruct (decide (j = i)) as [->|];
          [ exfalso; same_lookup; cbn in *; congruence
          | by rewrite list_lookup_insert_ne ]
      end ].

Ltac t_look_ne :=
  first
    [ assumption
    | let Hx := fresh "Hx" in
      intros Hx; apply lookup_snoc_Some in Hx as [[_ Hx]|[_ Hx]];
      [ contradiction | discriminate Hx ]
    | let Hx := fresh "Hx" in
      intros Hx; apply list_lookup_insert_Some in Hx as [(_ & Hx & _)|(_ & Hx)];
      [ discriminate Hx | contradiction ] ].

Lemma stuck_step s a σ σ' : stuck s σ -> step a σ = Some σ' -> stuck s σ'.
Proof.
  intros (Hc & [t Hs] & Hq & Hg & Hh) H.
  destruct a; step_inv H; eqb_facts; try congruence; destruct_sel.
  all: (split; [done|]); cbn.
  all: split; [exists t; t_look_eq|].
  all: split; [t_look_eq|].
  all: split; t_look_ne.
Qed.

Lemma stuck_run s acts σ σ' : stuck s σ -> run acts σ = Some σ' -> stuck s σ'.
Proof. apply (run_invariant (stuck s)). intros a τ τ'. apply stuck_step. Qed.

Lemma stuck_disabled s ch σ : stuck s σ -> step (AServe s ch) σ = None.
Proof.
  intros (_ & [t Hs] & Hq & _). unfold step, serveStep. by rewrite Hs, Hq.
Qed.

Lemma call_stuck call srv t σ σ' :
  gateInv σ -> closing (obj σ) <> 0%Z ->
  call = ACallServe t \/ call = ACallPkgServe srv t ->
  step call σ = Some σ' -> stuck (length (serves σ)) σ'.
Proof.
  intros I Hc Hcall H. destruct I.
  assert (Hsv : services σ !! length (serves σ) = None).
  { apply lookup_ge_None. lia. }
  assert (Hsg : signals σ !! length (serves σ) = None).
  { apply lookup_ge_None. lia. }
  destruct Hcall as [-> | ->]; injection H as <-; unfold stuck; cbn.
  all: split; [done|]; split; [exists t; by apply list_lookup_middle|].
  all: split; [rewrite <- gi_quits_len0; by apply list_lookup_middle|].
  all: split.
  all: first [ rewrite <- gi_services_len0, list_lookup_middle by done; discriminate
             | rewrite <- gi_signals_len0, list_lookup_middle by done; discriminate ].
Qed.

Lemma second_serve_blocks σ call srv t acts σ' :
  reachable σ -> closing (obj σ) <> 0%Z ->
  call = ACallServe t \/ call = ACallPkgServe srv t ->
  run (call :: acts) σ = Some σ' ->
  stuck (length (serves σ)) σ' /\
  pcOf (length (serves σ)) σ' = SvWaitQuit /\
  forall e, e ∈ trace σ' -> serveEvent (length (serves σ)) e = false.
Proof.
  intros Hr Hc Hcall H.
  assert (Hr' : reachable σ') by by eapply reachable_run.
  cbn in H. destruct (step call σ) as [σc|] eqn:Hstep; [|done].
  assert (Hst : stuck (length (serves σ)) σ').
  { eapply stuck_run; [|exact H].
    eapply call_stuck; [by apply gateInv_reachable | done | exact Hcall | exact Hstep]. }
  assert (Hpc : pcOf (length (serves σ)) σ' = SvWaitQuit).
  { destruct Hst as (_ & [t0 Hs] & _). unfold pcOf. by rewrite Hs. }
  split; [done|]. split; [done|].
  destruct (orderInv_reachable (length (serves σ)) σ' Hr') as [_ Hq].
  by rewrite Hpc in Hq.
Qed.

Lemma pcOf_frame s σ pc :
  pcOf s σ = pc -> pc <> SvWaitQuit ->
  exists fr, serves σ !! s = Some fr /\ servePc fr = pc.
Proof.
  unfold pcOf. destruct (serves σ !! s) as [fr|]; intros <- Hne; [by exists fr | done].
Qed.

(** C8, as amended: a call of Serve resets nothing: the stacks, the
    closing flag and the interrupted flag are what the previous run left.
    After a first Serve has returned the flag is 1, so a second Serve on
    the same instance stays at the receive on [quit], whatever else runs:
    its channel is never closed, none of its steps is enabled, and it
    invokes no routine. *)
Theorem C8_second_serve_blocks acts srv σ s0 call srv' t acts' σ' :
  run acts (initial (setServer srv defaultCleanupHTTP)) = Some σ ->
  pcOf s0 σ = SvReturned ->
  call = ACallServe t \/ call = ACallPkgServe srv' t ->
  run (call :: acts') σ = Some σ' ->
  (forall σc, step call σ = Some σc ->
     preRoutines (obj σc) = preRoutines (obj σ) /\
     postRoutines (obj σc) = postRoutines (obj σ) /\
     closing (obj σc) = closing (obj σ) /\
     interrupted (obj σc) = interrupted (obj σ)) /\
  closing (obj σ') = 1%Z /\
  pcOf (length (serves σ)) σ' = SvWaitQuit /\
  quits σ' !! length (serves σ) = Some false /\
  (forall ch, step (AServe (length (serves σ)) ch) σ' = None) /\
  (forall e, e ∈ trace σ' -> serveEvent (length (serves σ)) e = false).
Proof.
  intros Hrun Hret Hcall Hrun'.
  assert (Hr : reachable σ) by by eapply run_reachable.
  assert (Hc : closing (obj σ) = 1%Z).
  { destruct (pcOf_frame _ _ _ Hret) as (fr & Hfr & Hpc); [done|].
    eapply past_wait_closed; [by apply gateInv_reachable | exact Hfr |].
    by rewrite Hpc. }
  assert (Hc0 : closing (obj σ) <> 0%Z) by by rewrite Hc.
  destruct (second_serve_blocks σ call srv' t acts' σ' Hr Hc0 Hcall Hrun')
    as (Hst & Hpc & Hq).
  split.
  { intros σc Hs. by destruct Hcall as [-> | ->]; injection Hs as <-. }
  split.
  { destruct (run_closed _ _ _ Hc0 Hrun') as [-> _]. done. }
  split; [done|]. split; [apply Hst|]. split; [|done].
  intros ch. by apply stuck_disabled.
Qed.

Lemma C8_second_serve_blocks_witness :
  pcOf 0 (finalOf (fullRun ChNil)) = SvReturned /\
  closing (obj (finalOf (fullRun ChNil ++ secondCall))) = 1%Z /\
  pcOf 1 (finalOf (fullRun ChNil ++ secondCall)) = SvWaitQuit /\
  quits (finalOf (fullRun ChNil ++ secondCall)) !! 1 = Some false /\
  (forall ch, step (AServe 1 ch) (finalOf (fullRun ChNil ++ secondCall)) = None).
Proof.
  split; [vm_compute; reflexivity|].
  destruct (C8_second_serve_blocks (fullRun ChNil) theServer (finalOf (fullRun ChNil)) 0
              (ACallPkgServe theServer fiveSeconds) theServer fiveSeconds
              (tail secondCall) (finalOf (fullRun ChNil ++ secondCall)))
    as (_ & H1 & H2 & H3 & H4 & _).
  - vm_compute; reflexivity.
  - vm_compute; reflexivity.
  - by right.
  - vm_compute; reflexivity.
  - split; [exact H1|]. split; [exact H2|]. split; [exact H3 | exact H4].
Defined.

(** C8, as stated, fails: the first Serve has returned, a routine is still
    on the post-stack, and a second Serve never invokes it (nor any other),
    whatever runs afterwards. *)
Lemma C8_counterexample :
  run lateRun start = Some (finalOf lateRun) /\
  pcOf 0 (finalOf lateRun) = SvReturned /\
  routines (postRoutines (obj (finalOf lateRun))) = [cleanup7] /\
  forall t acts σ',
    run (ACallPkgServe theServer t :: acts) (finalOf lateRun) = Some σ' ->
    pcOf 1 σ' = SvWaitQuit /\ forall k r, EvCall 1 k r ∉ trace σ'.
Proof.
  split; [vm_compute; reflexivity|]. split; [vm_compute; reflexivity|].
  split; [vm_compute; reflexivity|].
  intros t acts σ' H.
  assert (Hr : reachable (finalOf lateRun)).
  { apply (run_reachable lateRun theServer). vm_compute; reflexivity. }
  assert (Hc : closing (obj (finalOf lateRun)) <> 0%Z) by (vm_compute; discriminate).
  destruct (second_serve_blocks _ _ theServer t acts σ' Hr Hc (or_intror eq_refl) H)
    as (_ & Hpc & Hq).
  change (length (serves (finalOf lateRun))) with 1 in Hpc, Hq.
  split; [done|]. intros k r Hin. specialize (Hq _ Hin). discriminate Hq.
Qed.

(** ** Two states *)

(** C7, as amended: the flag has two values, 0 (open) and 1 (closing); at
    most one compare-and-swap ever wins, and the flag is 0 exactly until
    then; no step of the caller of Serve writes the flag; and the flag is 1
    wherever the caller of Serve stands past the receive on [quit], also
    after it has returned: there is no third state. *)
Theorem C7_two_state_gate acts srv σ :
  run acts (initial (setServer srv defaultCleanupHTTP)) = Some σ ->
  (closing (obj σ) = 0%Z \/ closing (obj σ) = 1%Z) /\
  countIf id (casOutcomes (trace σ)) = (if Z.eqb (closing (obj σ)) 0 then 0 else 1) /\
  (forall s ch σ', step (AServe s ch) σ = Some σ' -> closing (obj σ') = closing (obj σ)) /\
  (forall s fr, serves σ !! s = Some fr -> servePc fr <> SvWaitQuit ->
                closing (obj σ) = 1%Z).
Proof.
  intros Hrun.
  assert (I : gateInv σ) by by eapply gateInv_reachable, run_reachable.
  split; [apply I|]. split; [|split].
  - destruct I. destruct (Z.eqb_spec (closing (obj σ)) 0) as [e|n].
    + by rewrite gi_cas_open0.
    + destruct (gi_cas_closed0 n) as [m ->]. cbn.
      by rewrite countIf_replicate_false.
  - intros s ch σ' H. by apply serveStep_flag in H as [-> _].
  - intros s fr. by apply past_wait_closed.
Qed.

Lemma C7_two_state_gate_witness :
  closing (obj (finalOf (fullRun ChNil))) = 1%Z /\
  countIf id (casOutcomes (trace (finalOf (fullRun ChNil)))) = 1 /\
  (closing (obj (finalOf (fullRun ChNil))) = 0%Z \/
   closing (obj (finalOf (fullRun ChNil))) = 1%Z).
Proof.
  split; [vm_compute; reflexivity|]. split; [vm_compute; reflexivity|].
  apply (C7_two_state_gate (fullRun ChNil) theServer (finalOf (fullRun ChNil))).
  vm_compute; reflexivity.
Defined.

(** C7, as stated, fails: the flag is 1 when the caller of Serve starts
    the pre-cleanup and still 1 when Serve has returned, so no value of the
    flag tells "closing" from "closed". *)
Lemma C7_counterexample :
  run (raceActions ++ [AServe 0 ChNil]) start = Some atPreCleanup /\
  pcOf 0 atPreCleanup = SvPreCleanup /\
  closing (obj atPreCleanup) = 1%Z /\
  run (fullRun ChNil) start = Some (finalOf (fullRun ChNil)) /\
  pcOf 0 (finalOf (fullRun ChNil)) = SvReturned /\
  closing (obj (finalOf (fullRun ChNil))) = 1%Z /\
  ~ triStateGate.
Proof.
  do 6 (split; [vm_compute; reflexivity|]).
  intros (CLOSING & CLOSED & Hne & H).
  destruct (H (raceActions ++ [AServe 0 ChNil]) atPreCleanup) as [H1 _];
    [vm_compute; reflexivity|].
  destruct (H (fullRun ChNil) (finalOf (fullRun ChNil))) as [_ H2];
    [vm_compute; reflexivity|].
  apply Hne. rewrite <- H1, <- H2 by (vm_compute; reflexivity).
  vm_compute; reflexivity.
Qed.

Lemma C5_post_drain_whatever_shutdown_witness :
  rev (routines (postRoutines (obj atShutdown))) = [cleanup4; cleanup3] /\
  exists σ',
    run (AServe 0 ChPanic :: drainActions 0 (len (postRoutines (obj atShutdown))))
        atShutdown = Some σ' /\
    trace σ' = trace atShutdown ++ shutdownEndEvents 0 ChPanic
                 ++ invocations 0 PostStack (rev (routines (postRoutines (obj atShutdown)))) /\
    cleanup PostStack (obj atShutdown)
      = Some (rev (routines (postRoutines (obj atShutdown))), obj σ') /\
    postRoutines (obj σ') = mkRoutineStack [] /\
    pcOf 0 σ' = serveExit ChPanic.
Proof.
  split; [vm_compute; reflexivity|].
  apply (C5_post_drain_whatever_shutdown atShutdown 0 fiveSeconds
           (WithTimeout Background fiveSeconds) ChPanic).
  - vm_compute; reflexivity.
  - vm_compute. repeat constructor.
Defined.

Lemma C9_drain_ignores_closed_witness :
  rev (routines (preRoutines (obj atPreCleanup))) = [cleanup2; cleanup1] /\
  isClosed (obj atPreCleanup) = true /\
  (forall k, cleanupPop k (obj atPreCleanup)
             = ((NilRoutine, NilIface, false), obj atPreCleanup, [popFailed])) /\
  exists σ',
    run (drainActions 0 (len (preRoutines (obj atPreCleanup)))
           ++ AServe 0 ChErr :: drainActions 0 (len (postRoutines (obj atPreCleanup))))
        atPreCleanup = Some σ' /\
    trace σ' = trace atPreCleanup
                 ++ invocations 0 PreStack (rev (routines (preRoutines (obj atPreCleanup))))
                 ++ [EvShutdownBegin 0 (shutdownContext fiveSeconds)]
                 ++ shutdownEndEvents 0 ChErr
                 ++ invocations 0 PostStack (rev (routines (postRoutines (obj atPreCleanup)))) /\
    preRoutines (obj σ') = mkRoutineStack [] /\
    postRoutines (obj σ') = mkRoutineStack [] /\
    isClosed (obj σ') = true /\
    pcOf 0 σ' = serveExit ChErr.
Proof.
  split; [vm_compute; reflexivity|].
  apply (C9_drain_ignores_closed (raceActions ++ [AServe 0 ChNil]) theServer
           atPreCleanup 0 fiveSeconds ChErr).
  - vm_compute; reflexivity.
  - vm_compute; reflexivity.
  - vm_compute. repeat constructor.
  - vm_compute. repeat constructor.
Defined.

(** ** The callers of the API, run alone *)

(** A call of [cleanupPush] whose two steps run with nothing in between
    does what the method does. *)
Lemma cleanupPush_alone σ k f a :
  let i := length (clients σ) in
  exists σ',
    run (ACallPush k f a :: AClient i :: (if isClosed (obj σ) then [] else [AClient i])) σ
      = Some σ' /\
    obj σ' = fst (cleanupPush k f a (obj σ)) /\
    clients σ' !! i = Some (CPushReturned (negb (isClosed (obj σ)))).
Proof.
  intros i. unfold cleanupPush. cbn [run step].
  unfold clientStep at 1. cbn [clients setClients obj].
  rewrite list_lookup_middle by done.
  destruct (isClosed (obj σ)) eqn:Hc; cbn [setClients obj clients].
  - eexists. split; [reflexivity|]. cbn. split; [done|].
    rewrite list_lookup_insert_eq; [done|]. rewrite length_app; cbn; lia.
  - cbn [run step]. unfold clientStep. cbn [gotoClient setClients clients].
    rewrite list_lookup_insert_eq by (rewrite length_app; cbn; lia).
    eexists. split; [reflexivity|]. cbn. split; [done|].
    rewrite list_lookup_insert_eq; [done|].
    rewrite length_insert, length_app; cbn; lia.
Qed.

(** The same for [cleanupPop]. *)
Lemma cleanupPop_alone σ k :
  let i := length (clients σ) in
  exists σ',
    run (ACallPop k :: AClient i :: (if isClosed (obj σ) then [] else [AClient i])) σ
      = Some σ' /\
    obj σ' = snd (fst (cleanupPop k (obj σ))) /\
    clients σ' !! i
      = Some (let '(f, a, ok) := fst (fst (cleanupPop k (obj σ))) in CPopReturned f a ok).
Proof.
  intros i. unfold cleanupPop. cbn [run step].
  unfold clientStep at 1. cbn [clients setClients obj].
  rewrite list_lookup_middle by done.
  destruct (isClosed (obj σ)) eqn:Hc; cbn [setClients obj clients].
  - eexists. split; [reflexivity|]. cbn. split; [done|].
    rewrite list_lookup_insert_eq; [done|]. rewrite length_app; cbn; lia.
  - cbn [run step]. unfold clientStep. cbn [gotoClient setClients clients obj].
    rewrite list_lookup_insert_eq by (rewrite length_app; cbn; lia).
    destruct (pop (getStack k (obj σ))) as [[r ok] st'].
    destruct ok; eexists; (split; [reflexivity|]); cbn; (split; [done|]).
    all: rewrite list_lookup_insert_eq; [done|].
    all: rewrite length_insert, length_app; cbn; lia.
Qed.

(** * More of the package *)

(** ** routineStack: len, push, pop *)

Lemma pop_ok_inv s r st' :
  pop s = (r, true, st') -> routines s = routines st' ++ [r].
Proof.
  intros H. destruct (pop_cases s) as [[_ Hp] | (l & x & Hl & Hp)];
    rewrite Hp in H; [discriminate|]. by injection H as <- <-.
Qed.


(** X1: [push] makes the stack one longer.  [pop] reports [true] exactly
    when [len] is not 0; it then returns the last routine of the slice and
    leaves the ones before it, in their order, so [len] goes down by one;
    on an empty stack it returns the zero [cleanupRoutine] and leaves the
    stack as it is. *)
Theorem X1_len_push_pop (s : routineStack) :
  (forall r, len (push r s) = S (len s)) /\
  snd (fst (pop s)) = negb (Nat.eqb (len s) 0) /\
  len (snd (pop s)) = len s - 1 /\
  routines s
    = routines (snd (pop s)) ++ (if snd (fst (pop s)) then [fst (fst (pop s))] else []) /\
  (len s = 0 -> pop s = (zeroCleanupRoutine, false, s)).
Proof.
  unfold len. split.
  { intros r. unfold push; cbn. rewrite length_app; cbn; lia. }
  destruct (pop_cases s) as [[He Hp] | (l & x & Hl & Hp)]; rewrite Hp; cbn.
  - rewrite He; cbn. done.
  - rewrite Hl, length_app; cbn. repeat split; try lia.
    symmetry. apply negb_true_iff, Nat.eqb_neq. lia.
Qed.

Lemma X1_len_push_pop_witness :
  pop (mkRoutineStack []) = (zeroCleanupRoutine, false, mkRoutineStack []) /\
  len (snd (pop (mkRoutineStack [cleanup1; cleanup2]))) = 1.
Proof.
  split.
  - apply (X1_len_push_pop (mkRoutineStack [])). reflexivity.
  - reflexivity.
Defined.

(** ** Push and pop on an open instance *)

Lemma setStack_getStack k c : setStack k (getStack k c) c = c.
Proof. destruct c, k; reflexivity. Qed.


Lemma isClosed_false (c : CleanupHTTP) : closing c = 0%Z -> isClosed c = false.
Proof. intros H. unfold isClosed. by rewrite H. Qed.

(** X2: on an instance whose flag is 0, a pop right after a push on the
    same stack hands back the routine and the argument pushed, with
    [true], logs nothing, and leaves the instance as it was before the
    push: this is how a caller cancels a clean-up it scheduled. *)
Theorem X2_push_then_pop_cancels c f a :
  closing c = 0%Z ->
  PreCleanupPop (fst (PreCleanupPush f a c)) = ((f, a, true), c, []) /\
  PostCleanupPop (fst (PostCleanupPush f a c)) = ((f, a, true), c, []) /\
  snd (PreCleanupPush f a c) = [] /\ snd (PostCleanupPush f a c) = [].
Proof.
  intros Hc. pose proof (isClosed_false c Hc) as Ho.
  unfold PreCleanupPop, PreCleanupPush, PostCleanupPop, PostCleanupPush,
    cleanupPush, cleanupPop.
  rewrite Ho; cbn [fst snd].
  assert (Ho' : forall k st, isClosed (setStack k st c) = false) by by intros [] ?.
  rewrite !Ho', !getStack_setStack, !pop_push, !setStack_twice, !setStack_getStack.
  done.
Qed.

Lemma X2_push_then_pop_cancels_witness :
  PreCleanupPop (fst (PreCleanupPush (Func 1) (IntVal 2) defaultCleanupHTTP))
  = ((Func 1, IntVal 2, true), defaultCleanupHTTP, []).
Proof.
  apply (X2_push_then_pop_cancels defaultCleanupHTTP (Func 1) (IntVal 2)).
  reflexivity.
Defined.




(** ** Facts about one call of Serve *)

(** A property of where the caller of Serve number [s] stands and of the
    history holds in every reachable state when it holds at the start, is
    kept when others add events, and is kept by each transition of that
    caller. *)
Lemma serve_invariant (F : nat -> ServePc -> list Event -> Prop) (s : nat) :
  F s SvWaitQuit [] ->
  (forall pc tr evs,
     F s pc tr -> (forall e, e ∈ evs -> serveEvent s e = false) -> F s pc (tr ++ evs)) ->
  (forall t pc pc' evs tr, serveTrans s t pc pc' evs -> F s pc tr -> F s pc' (tr ++ evs)) ->
  forall σ, reachable σ -> F s (pcOf s σ) (trace σ).
Proof.
  intros Hinit Hother Hown σ Hr.
  induction Hr as [srv | a σ σ' _ IH H]; [exact Hinit|].
  assert (Ho : (forall s0 ch, a <> AServe s0 ch) -> F s (pcOf s σ') (trace σ')).
  { intros Ha. destruct (otherStep_frame _ _ _ H Ha) as (Hs & evs & -> & Hev).
    rewrite (pcOf_other s σ σ' Hs). apply Hother; [done|]. intros e. apply Hev. }
  destruct a; try (apply Ho; intros; discriminate). clear Ho.
  destruct (serveStep_trans _ _ _ _ H) as (fr & pc' & evs & Hfr & Ht & Hs & ->).
  destruct (decide (s = s0)) as [->|Hne].
  - assert (Hpc : pcOf s0 σ = servePc fr) by (unfold pcOf; by rewrite Hfr).
    assert (Hpc' : pcOf s0 σ' = pc').
    { unfold pcOf. rewrite Hs, list_lookup_insert_eq; [done|].
      by eapply lookup_lt_Some. }
    rewrite Hpc'. rewrite Hpc in IH. by eapply Hown.
  - assert (Hpc' : pcOf s σ' = pcOf s σ).
    { unfold pcOf. by rewrite Hs, list_lookup_insert_ne. }
    rewrite Hpc'. apply Hother; [done|].
    intros e. by eapply serveTrans_foreign.
Qed.

Lemma serveEvent_begin s e : isBegin s e = true -> serveEvent s e = true.
Proof. by destruct e. Qed.

Lemma serveEvent_end s e : isEnd s e = true -> serveEvent s e = true.
Proof. by destruct e. Qed.

Lemma countIf_none {A} (p : A -> bool) (l : list A) :
  (forall x, x ∈ l -> p x = false) -> countIf p l = 0.
Proof.
  induction l as [|x l IH]; intros H; cbn; [done|].
  rewrite (H x) by by left. apply IH. intros y Hy. apply H. by right.
Qed.


Lemma countIf_zero {A} (p : A -> bool) (l : list A) x :
  countIf p l = 0 -> x ∈ l -> p x = false.
Proof.
  induction l as [|y l IH]; intros H Hin; [by apply elem_of_nil in Hin|].
  cbn in H. apply elem_of_cons in Hin as [-> | Hin].
  - destruct (p y); [lia | done].
  - apply IH; [|done]. destruct (p y); lia.
Qed.

Lemma shutdownCount_inv s σ : reachable σ -> shutdownCount s (pcOf s σ) (trace σ).
Proof.
  apply (serve_invariant shutdownCount s).
  - unfold shutdownCount; cbn. repeat split; (lia || done).
  - intros pc tr evs H Hev. unfold shutdownCount in *.
    rewrite !countIf_app.
    rewrite (countIf_none (isBegin s) evs), (countIf_none (isEnd s) evs).
    + by rewrite !Nat.add_0_r.
    + intros e He. specialize (Hev e He).
      destruct (isEnd s e) eqn:E; [|done]. apply serveEvent_end in E. congruence.
    + intros e He. specialize (Hev e He).
      destruct (isBegin s e) eqn:E; [|done]. apply serveEvent_begin in E. congruence.
  - intros t pc pc' evs tr Ht (H1 & H2 & H3 & H4 & H5 & H6).
    unfold shutdownCount. rewrite !countIf_app.
    destruct Ht; try destruct o; try destruct p; cbn in *;
      rewrite ?Nat.eqb_refl; cbn; repeat split; intros; try lia; try done;
      try (specialize (H3 eq_refl)); try (specialize (H4 eq_refl));
      try (specialize (H5 eq_refl)); try (specialize (H6 eq_refl)); lia.
Qed.

Lemma exitFacts_inv s σ : reachable σ -> exitFacts s (pcOf s σ) (trace σ).
Proof.
  apply (serve_invariant exitFacts s); [done | |].
  - intros pc tr evs H _. destruct pc; cbn in *; try done;
      destruct H as (o & H1 & H2 & H3); exists o;
      (split; [apply elem_of_app; by left|]); (split; [done|]);
      intros E; apply elem_of_app; left; by apply H3.
  - intros t pc pc' evs tr Ht H. destruct Ht; cbn in *; try done.
    + exists o. split; [|split; [by destruct o|]].
      * apply elem_of_app. right. destruct o; by left.
      * intros ->. apply elem_of_app. right. cbn. right. by left.
    + destruct H as (o & H1 & H2 & H3). exists o.
      split; [apply elem_of_app; by left|]. split; [done|].
      intros E; apply elem_of_app; left; by apply H3.
    + destruct H as (o & H1 & H2 & H3). rewrite app_nil_r.
      destruct p; [done|]. by exists o.
    + destruct H as (o & H1 & H2 & H3). exists o.
      split; [apply elem_of_app; by left|]. split; [done|].
      intros E; apply elem_of_app; left; by apply H3.
Qed.

(** X6: a call of Serve that has returned has called Shutdown, and
    Shutdown has ended without panicking; when Shutdown returned an error,
    the line "Shutdown failed" was logged and Serve returned all the same.
    Shutdown was called before it ended. *)
Theorem X6_returned_after_shutdown acts srv σ s :
  run acts (initial (setServer srv defaultCleanupHTTP)) = Some σ ->
  pcOf s σ = SvReturned ->
  exists o t1 t2,
    trace σ = t1 ++ EvShutdownEnd s o :: t2 /\
    (exists ctx, EvShutdownBegin s ctx ∈ t1) /\
    (o = ChNil \/ o = ChErr) /\
    (o = ChErr -> EvLog shutdownFailed ∈ trace σ).
Proof.
  intros Hrun Hpc.
  assert (Hr : reachable σ) by by eapply run_reachable.
  pose proof (exitFacts_inv s σ Hr) as He. rewrite Hpc in He.
  destruct He as (o & Hin & Hp & Hlog).
  apply list_elem_of_split in Hin as (t1 & t2 & Htr).
  exists o, t1, t2. split; [done|]. split.
  - destruct (orderInv_reachable s σ Hr) as [(_ & L2 & _) _]. by eapply L2.
  - split; [destruct o; by auto|done].
Qed.

Lemma X6_returned_after_shutdown_witness :
  exists o t1 t2,
    trace (finalOf (fullRun ChErr)) = t1 ++ EvShutdownEnd 0 o :: t2 /\
    (exists ctx, EvShutdownBegin 0 ctx ∈ t1) /\
    (o = ChNil \/ o = ChErr) /\
    (o = ChErr -> EvLog shutdownFailed ∈ trace (finalOf (fullRun ChErr))).
Proof.
  apply (X6_returned_after_shutdown (fullRun ChErr) theServer (finalOf (fullRun ChErr)) 0).
  - vm_compute; reflexivity.
  - vm_compute; reflexivity.
Defined.

(** X7: for each call of Serve, Shutdown is called at most once and ends
    at most once, never more often than it was called; it has not been
    called while the caller waits or runs the pre-cleanup, and it has been
    called and has ended exactly once when Serve has returned. *)
Theorem X7_shutdown_once acts srv σ s :
  run acts (initial (setServer srv defaultCleanupHTTP)) = Some σ ->
  countIf (isBegin s) (trace σ) <= 1 /\
  countIf (isEnd s) (trace σ) <= countIf (isBegin s) (trace σ) /\
  (beforeShutdown (pcOf s σ) = true -> countIf (isBegin s) (trace σ) = 0) /\
  (pcOf s σ = SvReturned ->
   countIf (isBegin s) (trace σ) = 1 /\ countIf (isEnd s) (trace σ) = 1).
Proof.
  intros Hrun.
  destruct (shutdownCount_inv s σ (run_reachable _ _ _ Hrun))
    as (H1 & H2 & H3 & H4 & H5 & H6).
  split; [done|]. split; [done|]. split; [done|].
  intros Hpc. rewrite Hpc in H6. specialize (H6 eq_refl). lia.
Qed.

Lemma X7_shutdown_once_witness :
  countIf (isBegin 0) (trace (finalOf (fullRun ChPanic))) = 1 /\
  countIf (isBegin 0) (trace atPreCleanup) = 0 /\
  countIf (isBegin 0) (trace (finalOf (fullRun ChNil))) = 1 /\
  countIf (isEnd 0) (trace (finalOf (fullRun ChNil))) = 1.
Proof.
  split; [vm_compute; reflexivity|].
  destruct (X7_shutdown_once (raceActions ++ [AServe 0 ChNil]) theServer atPreCleanup 0)
    as (_ & _ & H3 & _); [vm_compute; reflexivity|].
  destruct (X7_shutdown_once (fullRun ChNil) theServer (finalOf (fullRun ChNil)) 0)
    as (_ & _ & _ & H4); [vm_compute; reflexivity|].
  split; [apply H3; vm_compute; reflexivity|].
  apply H4. vm_compute; reflexivity.
Defined.

Lemma prePanicFacts_inv s σ : reachable σ -> prePanicFacts s (pcOf s σ) (trace σ).
Proof.
  apply (serve_invariant prePanicFacts s).
  - split; [unfold shutdownCount; cbn; repeat split; (lia || done)|].
    intros [r Hin]. by apply elem_of_nil in Hin.
  - intros pc tr evs [Hc Hp] Hev.
    assert (Hb : countIf (isBegin s) evs = 0).
    { apply countIf_none. intros e He. specialize (Hev e He).
      destruct (isBegin s e) eqn:E; [|done]. apply serveEvent_begin in E. congruence. }
    assert (He : countIf (isEnd s) evs = 0).
    { apply countIf_none. intros e He. specialize (Hev e He).
      destruct (isEnd s e) eqn:E; [|done]. apply serveEvent_end in E. congruence. }
    split.
    + unfold shutdownCount in *. rewrite !countIf_app, Hb, He. by rewrite !Nat.add_0_r.
    + intros [r [Hin | Hin]%elem_of_app].
      * destruct Hp as [-> Hz]; [by exists r|]. split; [done|].
        rewrite countIf_app, Hb. lia.
      * specialize (Hev _ Hin). cbn in Hev. by rewrite Nat.eqb_refl in Hev.
  - intros t pc pc' evs tr Ht [Hc Hp]. split.
    + pose proof Hc as (H1 & H2 & H3 & H4 & H5 & H6).
      unfold shutdownCount. rewrite !countIf_app.
      destruct Ht; try destruct o; try destruct p; cbn in *;
        rewrite ?Nat.eqb_refl; cbn; repeat split; intros; try lia; try done;
        try (specialize (H3 eq_refl)); try (specialize (H4 eq_refl));
        try (specialize (H5 eq_refl)); try (specialize (H6 eq_refl)); lia.
    + intros [r [Hin | Hin]%elem_of_app].
      * destruct Hp as [-> Hz]; [by exists r|]. inversion Ht.
      * destruct Ht; try destruct o; cbn in Hin; elem_inv Hin.
        split; [done|]. destruct Hc as (_ & _ & H3 & _).
        rewrite countIf_app, (H3 eq_refl). cbn. done.
Qed.

(** X8: when a routine of the pre-stack panics, the caller of Serve is
    gone for good: Shutdown is never called for that call, so it never
    ends, and no routine of the post-stack is invoked (the deferred
    post-cleanup is registered only after the pre-cleanup). *)
Theorem X8_pre_panic_skips_shutdown acts srv σ s r :
  run acts (initial (setServer srv defaultCleanupHTTP)) = Some σ ->
  EvRoutinePanic s PreStack r ∈ trace σ ->
  pcOf s σ = SvPanicked /\
  forall e, e ∈ trace σ ->
    isBegin s e = false /\ isEnd s e = false /\ routineEvent s PostStack e = false.
Proof.
  intros Hrun Hin.
  assert (Hr : reachable σ) by by eapply run_reachable.
  destruct (prePanicFacts_inv s σ Hr) as [(_ & H2 & _) Hp].
  destruct Hp as [Hpc Hz]; [by exists r|]. split; [done|].
  intros e He.
  assert (Hb : isBegin s e = false) by by apply (countIf_zero (isBegin s) (trace σ)).
  assert (Hn : isEnd s e = false)
    by (apply (countIf_zero (isEnd s) (trace σ)); [lia | done]).
  split; [done|]. split; [done|].
  destruct (routineEvent s PostStack e) eqn:E; [|done].
  apply list_elem_of_split in He as (t1 & t2 & Htr).
  destruct (orderInv_reachable s σ Hr) as [(_ & _ & L3) _].
  destruct (L3 _ _ _ Htr E) as [o Ho].
  assert (Ho' : EvShutdownEnd s o ∈ trace σ).
  { rewrite Htr. apply elem_of_app. by left. }
  assert (isEnd s (EvShutdownEnd s o) = false)
    by (apply (countIf_zero (isEnd s) (trace σ)); [lia | done]).
  cbn in *. by rewrite Nat.eqb_refl in *.
Qed.

Lemma X8_pre_panic_skips_shutdown_witness :
  pcOf 0 (finalOf panicRun) = SvPanicked /\
  forall e, e ∈ trace (finalOf panicRun) ->
    isBegin 0 e = false /\ isEnd 0 e = false /\ routineEvent 0 PostStack e = false.
Proof.
  apply (X8_pre_panic_skips_shutdown panicRun theServer (finalOf panicRun) 0 cleanup2).
  - vm_compute; reflexivity.
  - in_list.
Defined.

(** ** One attempt per goroutine *)

Lemma serviceAttempts_snoc l x :
  serviceAttempts ((l ++ [GListenAndServe]) !! x) = serviceAttempts (l !! x).
Proof.
  destruct (l !! x) as [pc|] eqn:E.
  - by rewrite (lookup_app_l_Some _ _ _ _ E).
  - destruct ((l ++ [GListenAndServe]) !! x) as [pc|] eqn:E'; [|done].
    apply lookup_snoc_Some in E' as [[_ E'] | [_ <-]]; [congruence | done].
Qed.

Lemma signalFresh_snoc l x :
  signalFresh ((l ++ [HRange]) !! x) = true -> signalFresh (l !! x) = true.
Proof.
  destruct (l !! x) as [pc|] eqn:E; [|done].
  by rewrite (lookup_app_l_Some _ _ _ _ E).
Qed.

Lemma signalPastSet_snoc l x :
  signalPastSet ((l ++ [HRange]) !! x) = signalPastSet (l !! x).
Proof.
  destruct (l !! x) as [pc|] eqn:E.
  - by rewrite (lookup_app_l_Some _ _ _ _ E).
  - destruct ((l ++ [HRange]) !! x) as [pc|] eqn:E'; [|done].
    apply lookup_snoc_Some in E' as [[_ E'] | [_ <-]]; [congruence | done].
Qed.

Ltac at_index x :=
  match goal with
  | |- context [<[?s:=_]> _ !! x] =>
      destruct (decide (x = s)) as [->|?];
      [ rewrite ?list_lookup_insert_eq by (eapply lookup_lt_Some; eassumption);
        rewrite ?Nat.eqb_refl
      | rewrite ?list_lookup_insert_ne by done;
        try match goal with
          | |- context [Nat.eqb x ?s'] =>
              replace (Nat.eqb x s') with false by (symmetry; by apply Nat.eqb_neq)
          end ]
  | _ => idtac
  end.

Lemma attemptInv_step x a σ σ' : attemptInv x σ -> step a σ = Some σ' -> attemptInv x σ'.
Proof.
  intros (I1 & I2 & I3 & I4) H. unfold attemptInv.
  destruct a as [t | srv t | s ch | s ch | s | k f a0 | k | i]; step_inv H;
    destruct_sel; cbn [trace obj services signals emit gotoServe gotoService gotoSignal
      gotoClient setObj setServes setServices setSignals setClients setQuits callServe
      interrupted setInterrupted setClosing setStack setServer];
    rewrite ?countIf_app; cbn [countIf casBy sameTrigger]; rewrite ?andb_false_r, ?andb_true_r;
    rewrite ?Nat.add_0_r;
    rewrite ?serviceAttempts_snoc, ?signalPastSet_snoc;
    try (split; [done|]; split; [done|]; split; [|done];
         intros Hf; apply I3; by apply signalFresh_snoc);
    try (by repeat split);
    at_index x.
  all: try (by repeat split).
  all: repeat match goal with
         | E : ?l !! ?j = Some _, I : context [?l !! ?j] |- _ => rewrite E in I
         end; cbn in I1, I3, I4 |- *.
  all: try specialize (I3 eq_refl).
  all: try (assert (interrupted (obj σ) = true) by (apply I4; by right)).
  all: try match goal with
         | Hb : interrupted (obj _) = false |- _ =>
             assert (countIf (casBy x BySignal) (trace σ) <> 1)
               by (intros E; specialize (I4 (or_introl E)); congruence)
         end.
  all: rewrite ?Nat.add_0_r.
  all: split; [lia|]; split; [lia|]; split;
    [ first [exact I3 | intros; lia | intros; discriminate]
    | first [exact I4 | intros; by auto
            | intros [?|?]; first [lia | discriminate | by auto]
            | let Hx := fresh in intros Hx; specialize (I4 Hx); congruence] ].
Qed.

Lemma attemptInv_reachable x σ : reachable σ -> attemptInv x σ.
Proof.
  induction 1 as [srv | a σ σ' _ IH Hs].
  - unfold attemptInv; cbn. repeat split; try done; try lia.
    intros [?|?]; discriminate.
  - by eapply attemptInv_step.
Qed.

(** X9: in one call of Serve each of the two goroutines attempts the
    compare-and-swap at most once: the goroutine that runs ListenAndServe
    once that has returned, and [handleSignal] for the first signal only,
    however many signals arrive. *)
Theorem X9_one_attempt_each acts srv σ s :
  run acts (initial (setServer srv defaultCleanupHTTP)) = Some σ ->
  countIf (casBy s ByService) (trace σ) <= 1 /\
  countIf (casBy s BySignal) (trace σ) <= 1 /\
  (countIf (casBy s BySignal) (trace σ) = 1 -> interrupted (obj σ) = true).
Proof.
  intros Hrun.
  destruct (attemptInv_reachable s σ (run_reachable _ _ _ Hrun)) as (I1 & I2 & _ & I4).
  split; [|split; [done|]].
  - rewrite I1. destruct (services σ !! s) as [[]|]; cbn; lia.
  - intros E. apply I4. by left.
Qed.

Lemma X9_one_attempt_each_witness :
  countIf (casBy 0 BySignal) (trace (finalOf stormRun)) = 1 /\
  countIf (casBy 0 ByService) (trace (finalOf stormRun)) <= 1 /\
  countIf (casBy 0 BySignal) (trace (finalOf stormRun)) <= 1 /\
  (countIf (casBy 0 BySignal) (trace (finalOf stormRun)) = 1 ->
   interrupted (obj (finalOf stormRun)) = true).
Proof.
  split; [vm_compute; reflexivity|].
  apply (X9_one_attempt_each stormRun theServer (finalOf stormRun) 0).
  vm_compute; reflexivity.
Defined.

(** ** Signals after the first *)

Lemma deaf_step s a σ σ' :
  deaf s σ -> step a σ = Some σ' ->
  deaf s σ' /\
  countIf (casBy s BySignal) (trace σ') = countIf (casBy s BySignal) (trace σ).
Proof.
  intros [Hi Hs] H. unfold deaf.
  destruct a as [t | srv t | x ch | x ch | x | k f a0 | k | i]; step_inv H;
    destruct_sel; cbn [trace obj services signals emit gotoServe gotoService gotoSignal
      gotoClient setObj setServes setServices setSignals setClients setQuits callServe
      interrupted setInterrupted setClosing setStack setServer];
    rewrite ?countIf_app; cbn [countIf casBy sameTrigger]; rewrite ?andb_false_r, ?andb_true_r;
    rewrite ?Nat.add_0_r; try congruence;
    try (split; [split; [done|]|done]; destruct Hs as [Hs|Hs]; [left|right];
         by apply lookup_app_l_Some);
    try (by repeat split).
  all: at_index s.
  all: try (by repeat split).
  all: try (destruct Hs; congruence).
  all: split; [split; [done|]; by auto | done].
Qed.

(** X10: once [c.interrupted] is set, a [handleSignal] that is between
    two signals only logs the signals it gets: whatever runs, it never
    attempts the compare-and-swap again, and [c.interrupted] stays set. *)
Theorem X10_later_signals_ignored s acts σ σ' :
  interrupted (obj σ) = true ->
  signals σ !! s = Some HRange ->
  run acts σ = Some σ' ->
  interrupted (obj σ') = true /\
  (signals σ' !! s = Some HRange \/ signals σ' !! s = Some HInterrupted) /\
  countIf (casBy s BySignal) (trace σ') = countIf (casBy s BySignal) (trace σ).
Proof.
  intros Hi Hs Hrun.
  assert (H : deaf s σ' /\
              countIf (casBy s BySignal) (trace σ') = countIf (casBy s BySignal) (trace σ)).
  { apply (run_invariant
             (fun τ => deaf s τ /\
                countIf (casBy s BySignal) (trace τ) = countIf (casBy s BySignal) (trace σ))
             ) with (acts := acts) (σ := σ); [| |done].
    - intros a τ τ' [Hd Hc] Hstep.
      destruct (deaf_step s a τ τ' Hd Hstep) as [Hd' Hc']. split; [done|congruence].
    - split; [|done]. split; [done|]. by left. }
  destruct H as [[H1 H2] H3]. done.
Qed.

Lemma X10_later_signals_ignored_witness :
  countIf (casBy 0 BySignal) (trace (finalOf (firstn 7 stormRun))) = 1 /\
  interrupted (obj (finalOf stormRun)) = true /\
  (signals (finalOf stormRun) !! 0 = Some HRange \/
   signals (finalOf stormRun) !! 0 = Some HInterrupted) /\
  countIf (casBy 0 BySignal) (trace (finalOf stormRun))
  = countIf (casBy 0 BySignal) (trace (finalOf (firstn 7 stormRun))).
Proof.
  split; [vm_compute; reflexivity|].
  apply (X10_later_signals_ignored 0 (skipn 7 stormRun) (finalOf (firstn 7 stormRun))
           (finalOf stormRun)).
  - vm_compute; reflexivity.
  - vm_compute; reflexivity.
  - vm_compute; reflexivity.
Defined.

(** ** What starts the cleanup *)

Lemma closedBy_step x a σ σ' : closedBy x σ -> step a σ = Some σ' -> closedBy x σ'.
Proof.
  intros I H. unfold closedBy in *.
  destruct a as [t | srv t | s ch | s ch | s | k f a0 | k | i]; step_inv H;
    cbn [trace quits emit gotoServe gotoService gotoSignal gotoClient setObj setServes
      setServices setSignals setClients setQuits callServe].
  all: intros Hq.
  all: try (destruct (I Hq) as [who Hw]; exists who; in_old; done).
  all: try (apply lookup_snoc_Some in Hq as [[_ Hq] | [_ Hq]]; [|discriminate];
            destruct (I Hq) as [who Hw]; by exists who).
  all: apply list_lookup_insert_Some in Hq as [(<- & _ & _) | (_ & Hq)];
    [ eexists; apply elem_of_app; right; by left
    | destruct (I Hq) as [who Hw]; exists who; in_old; done ].
Qed.

Lemma closedBy_reachable x σ : reachable σ -> closedBy x σ.
Proof.
  induction 1 as [srv | a σ σ' _ IH Hs]; [done|]. by eapply closedBy_step.
Qed.

(** X11: the caller of Serve gets past the receive on [quit] only after
    a goroutine of its own call (the one that ran ListenAndServe, or
    [handleSignal]) has won the compare-and-swap and closed the channel. *)
Theorem X11_cleanup_needs_trigger acts srv σ s fr :
  run acts (initial (setServer srv defaultCleanupHTTP)) = Some σ ->
  serves σ !! s = Some fr -> servePc fr <> SvWaitQuit ->
  exists who, EvCas s who true ∈ trace σ /\ EvCloseQuit s who ∈ trace σ.
Proof.
  intros Hrun Hfr Hpc.
  assert (Hr : reachable σ) by by eapply run_reachable.
  pose proof (gateInv_reachable σ Hr) as I.
  destruct (closedBy_reachable s σ Hr) as [who Hw].
  { by eapply (gi_waiter σ I). }
  exists who. split; [|done]. by apply (gi_close_by_winner σ I).
Qed.

Lemma X11_cleanup_needs_trigger_witness :
  exists who, EvCas 0 who true ∈ trace atPreCleanup /\
              EvCloseQuit 0 who ∈ trace atPreCleanup.
Proof.
  apply (X11_cleanup_needs_trigger (raceActions ++ [AServe 0 ChNil]) theServer
           atPreCleanup 0 (mkServeFrame fiveSeconds SvPreCleanup)).
  - vm_compute; reflexivity.
  - vm_compute; reflexivity.
  - discriminate.
Defined.

(** ** Where routines come from and go *)

Lemma pop_ok_len s r st' :
  pop s = (r, true, st') -> length (routines s) = S (length (routines st')).
Proof. intros H. rewrite (pop_ok_inv _ _ _ H), length_app. cbn. lia. Qed.

Lemma accounted_step k a σ σ' : accounted k σ -> step a σ = Some σ' -> accounted k σ'.
Proof.
  intros I H. unfold accounted in *.
  destruct a as [t | srv t | s ch | s ch | s | k0 f a0 | k0 | i]; step_inv H;
    repeat match goal with
      | Hp : pop _ = (_, true, _) |- _ => apply pop_ok_len in Hp
      end;
    destruct_sel; cbn in *; rewrite ?countIf_app; cbn; rewrite ?length_app; cbn; lia.
Qed.

Ltac reg_use I x :=
  let i := fresh "i" in let Hi := fresh "Hi" in
  destruct (I x) as [i Hi];
  [ first [ assumption
          | match goal with
            | Hp : _ = _ ++ [_] |- _ => rewrite Hp; apply elem_of_app; by left
            end
          | match goal with
            | Hp : _ = _ ++ [_] |- _ => rewrite Hp; apply elem_of_app; right; by left
            end ]
  | exists i; in_old; exact Hi ].

Ltac reg_stack I1 :=
  let r0 := fresh "r0" in let Hr0 := fresh "Hr0" in
  intros r0 Hr0;
  first
    [ reg_use I1 r0
    | apply elem_of_app in Hr0 as [Hr0 | Hr0%list_elem_of_singleton];
      [ reg_use I1 r0 | subst; eexists; apply elem_of_app; right; by left ] ].

Ltac reg_event I1 I :=
  let x := fresh "x" in let r0 := fresh "r0" in let Hin := fresh "Hin" in
  intros x r0 Hin;
  first
    [ let i := fresh "i" in let Hi := fresh "Hi" in
      destruct (I x r0 Hin) as [i Hi]; exists i; exact Hi
    | apply elem_of_app in Hin as [Hin | Hin];
      [ let i := fresh "i" in let Hi := fresh "Hi" in
        destruct (I x r0 Hin) as [i Hi]; exists i; in_old; exact Hi
      | elem_inv Hin; injection Hin as ? ?; subst;
        match goal with |- exists _, EvPushed _ _ ?r ∈ _ => reg_use I1 r end ] ].

Lemma registered_step k a σ σ' : registered k σ -> step a σ = Some σ' -> registered k σ'.
Proof.
  intros (I1 & I2 & I3) H. unfold registered.
  destruct a as [t | srv t | s ch | s ch | s | k0 f a0 | k0 | i]; step_inv H;
    repeat match goal with
      | Hp : pop _ = (_, true, _) |- _ => apply pop_ok_inv in Hp
      end;
    destruct_sel; cbn in *.
  all: try (by repeat split).
  all: split; [reg_stack I1 | split; [reg_event I1 I2 | reg_event I1 I3]].
Qed.

Lemma registered_reachable k σ : reachable σ -> registered k σ.
Proof.
  induction 1 as [srv | a σ σ' _ IH Hs]; [|by eapply registered_step].
  repeat split; intros; destruct k; cbn in *;
    by match goal with H : _ ∈ [] |- _ => apply elem_of_nil in H end.
Qed.

(** X12: nothing is lost and nothing runs twice: for each stack, the
    pushes that were accepted are as many as the routines still on the
    stack, plus those handed back to a caller of pop, plus those invoked by
    the drains of all calls of Serve. *)
Theorem X12_pushes_accounted acts srv σ k :
  run acts (initial (setServer srv defaultCleanupHTTP)) = Some σ ->
  countIf (pushedOn k) (trace σ)
  = len (getStack k (obj σ))
    + countIf (poppedFrom k) (trace σ) + countIf (calledFrom k) (trace σ).
Proof.
  intros Hrun. apply (run_reachable acts srv) in Hrun.
  change (accounted k σ).
  induction Hrun as [srv' | a σ σ' _ IH Hs].
  - by destruct k.
  - by eapply accounted_step.
Qed.

Lemma X12_pushes_accounted_witness :
  countIf (pushedOn PostStack) (trace (finalOf lateRun)) = 1 /\
  countIf (pushedOn PreStack) (trace (finalOf (fullRun ChNil)))
  = len (getStack PreStack (obj (finalOf (fullRun ChNil))))
    + countIf (poppedFrom PreStack) (trace (finalOf (fullRun ChNil)))
    + countIf (calledFrom PreStack) (trace (finalOf (fullRun ChNil))).
Proof.
  split; [vm_compute; reflexivity|].
  apply (X12_pushes_accounted (fullRun ChNil) theServer). vm_compute; reflexivity.
Defined.

(** X13: a drain invokes only what was registered: every routine that a
    call of Serve invokes from a stack, with its argument, was pushed onto
    that stack by an accepted push; the same holds for what pop hands
    back. *)
Theorem X13_only_registered_run acts srv σ k r :
  run acts (initial (setServer srv defaultCleanupHTTP)) = Some σ ->
  ((exists s, EvCall s k r ∈ trace σ) \/ (exists j, EvPopped j k r ∈ trace σ) \/
   r ∈ routines (getStack k (obj σ))) ->
  exists i, EvPushed i k r ∈ trace σ.
Proof.
  intros Hrun H.
  destruct (registered_reachable k σ (run_reachable _ _ _ Hrun)) as (I1 & I2 & I3).
  destruct H as [[s H] | [[j H] | H]]; eauto.
Qed.

Lemma X13_only_registered_run_witness :
  exists i, EvPushed i PreStack cleanup2 ∈ trace (finalOf (fullRun ChNil)).
Proof.
  apply (X13_only_registered_run (fullRun ChNil) theServer).
  - vm_compute; reflexivity.
  - left. exists 0. in_list.
Defined.

(** ** After the last Serve *)

Lemma serveTrans_unfinished s t pc pc' evs :
  serveTrans s t pc pc' evs -> finished pc = false.
Proof. by destruct 1. Qed.

Lemma plain_step_serves a σ σ' :
  step a σ = Some σ' ->
  (forall s ch, a <> AServe s ch) ->
  (forall t, a <> ACallServe t) -> (forall srv t, a <> ACallPkgServe srv t) ->
  serves σ' = serves σ.
Proof.
  intros H H1 H2 H3.
  destruct a; try (by destruct (H1 s ch)); try (by destruct (H2 t));
    try (by destruct (H3 srv t)); by step_inv H.
Qed.

Lemma lengths_step a σ σ' :
  step a σ = Some σ' ->
  length (quits σ) = length (serves σ) /\
  length (services σ) = length (serves σ) /\
  length (signals σ) = length (serves σ) ->
  length (quits σ') = length (serves σ') /\
  length (services σ') = length (serves σ') /\
  length (signals σ') = length (serves σ').
Proof.
  intros H (L1 & L2 & L3). destruct a; step_inv H; (split; [t_len | split; t_len]).
Qed.

Lemma call_stuck_lengths call srv t σ σ' :
  closing (obj σ) <> 0%Z ->
  length (quits σ) = length (serves σ) ->
  length (services σ) = length (serves σ) ->
  length (signals σ) = length (serves σ) ->
  call = ACallServe t \/ call = ACallPkgServe srv t ->
  step call σ = Some σ' -> stuck (length (serves σ)) σ'.
Proof.
  intros Hc L1 L2 L3 Hcall H.
  destruct Hcall as [-> | ->]; injection H as <-; unfold stuck; cbn.
  all: split; [done|]; split; [exists t; by apply list_lookup_middle|].
  all: split; [rewrite <- L1; by apply list_lookup_middle|].
  all: split.
  all: first [ rewrite <- L2, list_lookup_middle by done; discriminate
             | rewrite <- L3, list_lookup_middle by done; discriminate ].
Qed.

Lemma spent_step a σ σ' :
  spent σ -> step a σ = Some σ' ->
  spent σ' /\
  exists evs, trace σ' = trace σ ++ evs /\ forall s e, e ∈ evs -> serveEvent s e = false.
Proof.
  intros (Hc & L1 & L2 & L3 & Hall) H.
  assert (Hns : forall s ch, a <> AServe s ch).
  { intros s ch ->. destruct (serveStep_trans _ _ _ _ H) as (fr & pc' & evs & Hfr & Ht & _).
    destruct (Hall s fr Hfr) as [Hf | Hst].
    - apply serveTrans_unfinished in Ht. congruence.
    - rewrite (stuck_disabled s ch σ Hst) in H. discriminate. }
  destruct (otherStep_frame _ _ _ H Hns) as (_ & evs & Htr & Hev).
  split; [|by exists evs].
  destruct (lengths_step _ _ _ H (conj L1 (conj L2 L3))) as (L1' & L2' & L3').
  split; [destruct (step_closed _ _ _ Hc H); congruence|].
  split; [done|]. split; [done|]. split; [done|].
  intros s fr Hfr.
  assert (Hcalls : forall srv t, a = ACallServe t \/ a = ACallPkgServe srv t ->
                     finished (servePc fr) = true \/ stuck s σ').
  { intros srv t Hcall.
    assert (Hsv : serves σ' = serves σ ++ [mkServeFrame t SvWaitQuit]).
    { by destruct Hcall as [-> | ->]; injection H as <-. }
    rewrite Hsv in Hfr. apply lookup_snoc_Some in Hfr as [[_ Hfr] | [-> _]].
    - destruct (Hall s fr Hfr) as [Hf | Hst]; [by left | right; by eapply stuck_step].
    - right. by eapply call_stuck_lengths. }
  destruct a as [t | srv t | x ch | x ch | x | k f a0 | k | i];
    [ by apply (Hcalls None t); left | by apply (Hcalls srv t); right
    | by destruct (Hns x ch) | .. ].
  all: rewrite (plain_step_serves _ _ _ H) in Hfr by (intros; discriminate).
  all: destruct (Hall s fr Hfr) as [Hf | Hst]; [by left | right; by eapply stuck_step].
Qed.

Lemma spent_run acts σ σ' :
  spent σ -> run acts σ = Some σ' ->
  spent σ' /\
  exists evs, trace σ' = trace σ ++ evs /\ forall s e, e ∈ evs -> serveEvent s e = false.
Proof.
  revert σ. induction acts as [|a acts IH]; intros σ Hsp H; cbn in H.
  - injection H as <-. split; [done|]. exists []. split; [by rewrite app_nil_r|].
    intros ? ? Hin; by apply elem_of_nil in Hin.
  - destruct (step a σ) as [σ1|] eqn:Hs; [|done].
    destruct (spent_step _ _ _ Hsp Hs) as (Hsp1 & evs1 & Ht1 & Hq1).
    destruct (IH σ1 Hsp1 H) as (Hsp2 & evs2 & Ht2 & Hq2).
    split; [done|]. exists (evs1 ++ evs2). split.
    + by rewrite Ht2, Ht1, app_assoc.
    + intros s e [Hin|Hin]%elem_of_app; [by eapply Hq1 | by eapply Hq2].
Qed.

(** X14: an instance is good for one shutdown.  Once every call of Serve
    made on it has returned or panicked, nothing that runs afterwards (new
    calls of Serve, signals, pushes, pops) makes a call of Serve move: no
    routine is invoked, Shutdown is not called, no step of a caller of Serve
    is enabled, and the flag stays 1. *)
Theorem X14_instance_spent acts srv σ acts' σ' :
  run acts (initial (setServer srv defaultCleanupHTTP)) = Some σ ->
  serves σ <> [] ->
  (forall s fr, serves σ !! s = Some fr -> finished (servePc fr) = true) ->
  run acts' σ = Some σ' ->
  closing (obj σ') = 1%Z /\
  (forall s ch, step (AServe s ch) σ' = None) /\
  exists evs, trace σ' = trace σ ++ evs /\ forall s e, e ∈ evs -> serveEvent s e = false.
Proof.
  intros Hrun Hne Hfin Hrun'.
  assert (Hr : reachable σ) by by eapply run_reachable.
  pose proof (gateInv_reachable σ Hr) as I.
  assert (Hc : closing (obj σ) = 1%Z).
  { destruct (serves σ) as [|fr l] eqn:E; [done|].
    apply (past_wait_closed σ 0 fr I); [rewrite ?E; done|].
    assert (Hf : finished (servePc fr) = true) by (apply (Hfin 0); rewrite ?E; done).
    intros Hw. by rewrite Hw in Hf. }
  assert (Hsp : spent σ).
  { destruct I. split; [by rewrite Hc|]. repeat split; try done.
    intros s fr Hfr. left. by eapply Hfin. }
  destruct (spent_run _ _ _ Hsp Hrun') as ((Hc' & _ & _ & _ & Hall) & Hev).
  split.
  { destruct (run_closed acts' σ σ') as [-> _]; [by rewrite Hc | done | done]. }
  split; [|done].
  intros s ch. destruct (step (AServe s ch) σ') as [τ|] eqn:Hs; [|done]. exfalso.
  destruct (serveStep_trans _ _ _ _ Hs) as (fr & pc' & evs & Hfr & Ht & _).
  destruct (Hall s fr Hfr) as [Hf | Hst].
  - apply serveTrans_unfinished in Ht. congruence.
  - rewrite (stuck_disabled s ch σ' Hst) in Hs. discriminate.
Qed.

Lemma X14_instance_spent_witness :
  closing (obj (finalOf (fullRun ChNil ++ secondCall))) = 1%Z /\
  (forall s ch, step (AServe s ch) (finalOf (fullRun ChNil ++ secondCall)) = None) /\
  exists evs,
    trace (finalOf (fullRun ChNil ++ secondCall)) = trace (finalOf (fullRun ChNil)) ++ evs /\
    forall s e, e ∈ evs -> serveEvent s e = false.
Proof.
  apply (X14_instance_spent (fullRun ChNil) theServer (finalOf (fullRun ChNil)) secondCall).
  - vm_compute; reflexivity.
  - vm_compute. discriminate.
  - intros s fr Hs. destruct s as [|s]; vm_compute in Hs; [by injection Hs as <-|].
    destruct s; discriminate Hs.
  - vm_compute; reflexivity.
Defined.

(** ** The Server field *)

Lemma step_server a σ σ' :
  step a σ = Some σ' ->
  Server (obj σ') = match a with ACallPkgServe srv _ => srv | _ => Server (obj σ) end.
Proof. intros H. destruct a; step_inv H; destruct_sel; done. Qed.

(** X15: [Server] is written by the package-level [Serve] only, which
    stores its argument before it calls the method: after any run,
    [Server] is the argument of the last package-level [Serve], or what it
    was when there was none. *)
Theorem X15_server_last_package_serve acts σ σ' :
  run acts σ = Some σ' -> Server (obj σ') = lastServer acts (Server (obj σ)).
Proof.
  revert σ. induction acts as [|a acts IH]; intros σ H; cbn in H.
  - by injection H as <-.
  - destruct (step a σ) as [σ1|] eqn:Hs; [|done].
    rewrite (IH σ1 H), (step_server _ _ _ Hs). by destruct a.
Qed.

Lemma X15_server_last_package_serve_witness :
  Server (obj (finalOf (fullRun ChNil ++ secondCall))) = theServer.
Proof.
  apply (X15_server_last_package_serve (fullRun ChNil ++ secondCall) start).
  vm_compute; reflexivity.
Defined.

(** ** Serve from the call to the return *)

(** The caller of [Serve], run alone from the pre-cleanup on. *)
Lemma serve_alone σ s t o :
  serves σ !! s = Some (mkServeFrame t SvPreCleanup) ->
  callable (routines (preRoutines (obj σ))) ->
  callable (routines (postRoutines (obj σ))) ->
  run (serveAlone s (len (preRoutines (obj σ))) o (len (postRoutines (obj σ)))) σ
  = Some (mkSystem (drained (obj σ)) (quits σ)
            (<[s := mkServeFrame t (serveExit o)]> (serves σ))
            (services σ) (signals σ) (clients σ)
            (trace σ ++ serveAloneEvents s t (routines (preRoutines (obj σ))) o
                          (routines (postRoutines (obj σ))))).
Proof.
  intros Hs Hpre Hpost. unfold serveAlone.
  assert (Hlt : s < length (serves σ)) by by eapply lookup_lt_Some.
  rewrite run_app, (drain_pre s t σ Hs Hpre). cbn [mbind option_bind].
  set (σ1 := emit _ _).
  pose proof (shutdown_then_drain σ1 s t (shutdownContext t) o) as Hd.
  change (postRoutines (obj σ1)) with (postRoutines (obj σ)) in Hd.
  rewrite Hd;
    [| subst σ1; unfold emit, gotoServe, setServes; cbn [serves];
       by apply list_lookup_insert_eq | done].
  clear Hd. subst σ1. unfold drained, serveAloneEvents.
  cbv [gotoServe emit setObj setServes obj quits serves services signals clients trace].
  by rewrite !list_insert_insert_eq, <- !app_assoc.
Qed.

(** X16: Serve shuts down without any signal when ListenAndServe returns
    (with [http.ErrServerClosed], or with another error, which is logged):
    the goroutine wins the compare-and-swap and closes [quit]; Serve then
    invokes the pre-stack last pushed first, calls Shutdown with the
    context of its timeout, invokes the post-stack last pushed first and
    ends: by a return when Shutdown returned (an error is logged), by
    Shutdown's panic, after the deferred post-cleanup, when it panicked.
    Both stacks are then empty, the flag is 1, and [handleSignal] has not
    moved. *)
Theorem X16_service_exit_shuts_down c t e o :
  closing c = 0%Z -> e <> ChPanic ->
  callable (routines (preRoutines c)) -> callable (routines (postRoutines c)) ->
  run (serviceExitRun t e o (len (preRoutines c)) (len (postRoutines c))) (initial c)
  = Some (mkSystem (setClosing 1%Z (drained c)) [true]
            [mkServeFrame t (serveExit o)] [GExited] [HRange] []
            (listenEvents e ++ [EvCas 0 ByService true; EvCloseQuit 0 ByService]
             ++ serveAloneEvents 0 t (routines (preRoutines c)) o
                  (routines (postRoutines c)))).
Proof.
  intros Hc He Hpre Hpost. unfold serviceExitRun. rewrite run_app.
  assert (H0 : run [ACallServe t; AService 0 e; AService 0 ChNil; AService 0 ChNil;
                    AServe 0 ChNil] (initial c)
               = Some (mkSystem (setClosing 1%Z c) [true]
                         [mkServeFrame t SvPreCleanup] [GExited] [HRange] []
                         (listenEvents e
                          ++ [EvCas 0 ByService true; EvCloseQuit 0 ByService]))).
  { clear Hpre Hpost. destruct c; cbn in Hc; subst.
    destruct e; [| |done]; vm_compute; reflexivity. }
  rewrite H0. cbn [mbind option_bind].
  match goal with
  | |- run _ ?x = _ => etrans; [ apply (serve_alone x 0 t o eq_refl Hpre Hpost) |]
  end.
  destruct c; cbn; by rewrite <- !app_assoc.
Qed.

Lemma X16_service_exit_shuts_down_witness :
  exists σ',
    run (serviceExitRun fiveSeconds ChErr ChNil 2 2) (initial (obj (finalOf pushes)))
      = Some σ' /\
    trace σ' = [ EvLog listenFailed; EvCas 0 ByService true; EvCloseQuit 0 ByService;
                 EvCall 0 PreStack cleanup2; EvRet 0 PreStack cleanup2;
                 EvCall 0 PreStack cleanup1; EvRet 0 PreStack cleanup1;
                 EvShutdownBegin 0 (shutdownContext fiveSeconds); EvShutdownEnd 0 ChNil;
                 EvCall 0 PostStack cleanup4; EvRet 0 PostStack cleanup4;
                 EvCall 0 PostStack cleanup3; EvRet 0 PostStack cleanup3 ].
Proof.
  eexists. split.
  - apply (X16_service_exit_shuts_down (obj (finalOf pushes)) fiveSeconds ChErr ChNil).
    + vm_compute; reflexivity.
    + discriminate.
    + vm_compute. repeat constructor.
    + vm_compute. repeat constructor.
  - vm_compute; reflexivity.
Defined.

(** X17: a signal shuts Serve down while ListenAndServe is still running:
    [handleSignal] logs the signal, sets [interrupted], wins the
    compare-and-swap and closes [quit]; Serve then runs the pre-stack,
    Shutdown and the post-stack as above.  A second signal is only logged,
    and when ListenAndServe returns afterwards its goroutine loses the
    compare-and-swap and closes nothing. *)
Theorem X17_signal_shuts_down c t o :
  closing c = 0%Z -> interrupted c = false ->
  callable (routines (preRoutines c)) -> callable (routines (postRoutines c)) ->
  run (signalRun t o (len (preRoutines c)) (len (postRoutines c))) (initial c)
  = Some (mkSystem (setInterrupted true (setClosing 1%Z (drained c))) [true]
            [mkServeFrame t (serveExit o)] [GExited] [HRange] []
            ([EvLog systemCall; EvCas 0 BySignal true; EvCloseQuit 0 BySignal]
             ++ serveAloneEvents 0 t (routines (preRoutines c)) o
                  (routines (postRoutines c))
             ++ [EvLog systemCall; EvCas 0 ByService false])).
Proof.
  intros Hc Hi Hpre Hpost. unfold signalRun. rewrite run_app.
  assert (H0 : run [ACallServe t; ASignal 0; ASignal 0; ASignal 0; ASignal 0; ASignal 0;
                    ASignal 0; AServe 0 ChNil] (initial c)
               = Some (mkSystem (setInterrupted true (setClosing 1%Z c)) [true]
                         [mkServeFrame t SvPreCleanup] [GListenAndServe] [HRange] []
                         [EvLog systemCall; EvCas 0 BySignal true;
                          EvCloseQuit 0 BySignal])).
  { clear Hpre Hpost. destruct c; cbn in Hc, Hi; subst. vm_compute; reflexivity. }
  rewrite H0. cbn [mbind option_bind]. rewrite run_app.
  match goal with
  | |- run _ ?x ≫= _ = _ =>
      pose proof (serve_alone x 0 t o eq_refl Hpre Hpost) as Hd
  end.
  cbn [obj setInterrupted setClosing preRoutines postRoutines] in Hd.
  rewrite Hd. clear Hd H0. cbn [mbind option_bind quits serves services signals clients trace].
  generalize (serveAloneEvents 0 t (routines (preRoutines c)) o (routines (postRoutines c))).
  intros evs. clear Hpre Hpost. destruct c as [srv pre post cl intr]; cbn in Hc, Hi; subst.
  assert (H1 : forall tr,
             run [ASignal 0; ASignal 0; AService 0 ChNil; AService 0 ChNil]
               (mkSystem (mkCleanupHTTP srv (mkRoutineStack []) (mkRoutineStack []) 1%Z true)
                  [true] [mkServeFrame t (serveExit o)] [GListenAndServe] [HRange] [] tr)
             = Some (mkSystem
                       (mkCleanupHTTP srv (mkRoutineStack []) (mkRoutineStack []) 1%Z true)
                       [true] [mkServeFrame t (serveExit o)] [GExited] [HRange] []
                       ((tr ++ [EvLog systemCall]) ++ [EvCas 0 ByService false])))
    by (intros tr; vm_compute; reflexivity).
  etrans; [ apply H1 |]. cbn. by rewrite <- !app_assoc.
Qed.

Lemma X17_signal_shuts_down_witness :
  exists σ',
    run (signalRun fiveSeconds ChNil 2 2) (initial (obj (finalOf pushes))) = Some σ' /\
    trace σ' = [ EvLog systemCall; EvCas 0 BySignal true; EvCloseQuit 0 BySignal;
                 EvCall 0 PreStack cleanup2; EvRet 0 PreStack cleanup2;
                 EvCall 0 PreStack cleanup1; EvRet 0 PreStack cleanup1;
                 EvShutdownBegin 0 (shutdownContext fiveSeconds); EvShutdownEnd 0 ChNil;
                 EvCall 0 PostStack cleanup4; EvRet 0 PostStack cleanup4;
                 EvCall 0 PostStack cleanup3; EvRet 0 PostStack cleanup3;
                 EvLog systemCall; EvCas 0 ByService false ].
Proof.
  eexists. split.
  - apply (X17_signal_shuts_down (obj (finalOf pushes)) fiveSeconds ChNil).
    + vm_compute; reflexivity.
    + vm_compute; reflexivity.
    + vm_compute. repeat constructor.
    + vm_compute. repeat constructor.
  - vm_compute; reflexivity.
Defined.
